(** * CircularQueue<T>: a fixed-size ring buffer queue

    A shallow embedding of the TypeScript class [CircularQueue<T>] (the
    data-structure chapter of the repository) and the verification of its
    queue laws: construction, enqueue, dequeue, peek, length and the two
    iterators.

    Conventions of the embedding.
    - A JavaScript number that the class handles is an integer, except for
      the result of [%] with a zero divisor, which is [NaN].  Integers are
      [Z]; a number that may be [NaN] has type [number].
    - The backing array is a JavaScript sparse array.  [new Array(size)]
      creates [size] holes, a hole reads as [undefined], and an indexed
      store defines the slot, extending the array when the index lies past
      its end.  The class never reads the array's own [length], so the array
      is modelled by its defined slots: a finite map from index to element.
    - A method runs on the object's state and either returns or throws; the
      outcome carries the state the object is left in, also after a throw. *)

From stdpp Require Import gmap strings list.
From Stdlib Require Import ZArith Lia.

Local Open Scope Z_scope.

(** ** JavaScript numbers, values and errors *)

(** A number that may be [NaN]. *)
Inductive number : Type :=
  | Int (z : Z)
  | NaN.

(** [a % b] on integers: the remainder takes the sign of the dividend, and
    a zero divisor gives [NaN].  ([-0] and [0] are not told apart: [==],
    [===] and property keys do not tell them apart either.) *)
Definition js_rem (a b : Z) : number :=
  if b =? 0 then NaN else Int (Z.rem a b).

(** [a == n] and [a === n] for an integer [a]: [NaN] equals nothing. *)
Definition num_eqb (a : Z) (n : number) : bool :=
  match n with
  | Int b => a =? b
  | NaN => false
  end.

(** What a method hands back: an element, [undefined] (a hole of the
    array) or [null]. *)
Inductive value (T : Type) : Type :=
  | undefined
  | null
  | val (t : T).
Arguments undefined {T}.
Arguments null {T}.
Arguments val {T} t.

(** The exceptions: [new Error(message)] thrown by the class, and the
    [RangeError] of [new Array(n)] for an invalid length. *)
Inductive exn : Type :=
  | Error (message : string)
  | RangeError.

(** The outcome of a method call on an object in state [S]. *)
Inductive outcome (S A : Type) : Type :=
  | Returns (a : A) (s : S)
  | Throws (e : exn) (s : S).
Arguments Returns {S A} a s.
Arguments Throws {S A} e s.

(** [new Array(n)] accepts exactly the lengths [0 .. 2^32 - 1]. *)
Definition valid_array_length (n : Z) : bool :=
  (0 <=? n) && (n <? 2 ^ 32).

Section CircularQueue.
Context {T : Type}.

(** [storage[i]] *)
Definition read (storage : gmap Z T) (i : number) : value T :=
  match i with
  | Int z => match storage !! z with
             | Some t => val t
             | None => undefined
             end
  | NaN => undefined
  end.

(** The fields of the class. *)
Record CircularQueue : Type := mkCircularQueue {
  queue : gmap Z T;
  frontIndex : Z;
  rearIndex : Z;
  size : Z
}.

(** [constructor(size)] *)
Definition constructor (size : Z) : exn + CircularQueue :=
  if valid_array_length size
  then inr {| queue := ∅; frontIndex := -1; rearIndex := -1; size := size |}
  else inl RangeError.

(** [enqueue(item)] *)
Definition enqueue (item : T) (this : CircularQueue) : outcome CircularQueue unit :=
  if ((frontIndex this =? 0) && (rearIndex this =? size this - 1))
     || num_eqb (rearIndex this) (js_rem (frontIndex this - 1) (size this - 1))
  then Throws (Error "Queue is full") this
  else if frontIndex this =? -1
  then Returns tt {| queue := <[0 := item]> (queue this);
                     frontIndex := 0;
                     rearIndex := 0;
                     size := size this |}
  else if (rearIndex this =? size this - 1) && negb (frontIndex this =? 0)
  then Returns tt {| queue := <[0 := item]> (queue this);
                     frontIndex := frontIndex this;
                     rearIndex := 0;
                     size := size this |}
  else Returns tt {| queue := <[rearIndex this + 1 := item]> (queue this);
                     frontIndex := frontIndex this;
                     rearIndex := rearIndex this + 1;
                     size := size this |}.

(** [dequeue()] *)
Definition dequeue (this : CircularQueue) : outcome CircularQueue (value T) :=
  if frontIndex this =? -1
  then Throws (Error "Queue is empty") this
  else
    let item := read (queue this) (Int (frontIndex this)) in
    if frontIndex this =? rearIndex this
    then Returns item {| queue := queue this;
                         frontIndex := -1;
                         rearIndex := -1;
                         size := size this |}
    else if frontIndex this =? size this - 1
    then Returns item {| queue := queue this;
                         frontIndex := 0;
                         rearIndex := rearIndex this;
                         size := size this |}
    else Returns item {| queue := queue this;
                         frontIndex := frontIndex this + 1;
                         rearIndex := rearIndex this;
                         size := size this |}.

(** [peek()] *)
Definition peek (this : CircularQueue) : outcome CircularQueue (value T) :=
  if frontIndex this =? -1
  then Returns null this
  else Returns (read (queue this) (Int (frontIndex this))) this.

(** [isEmpty()] *)
Definition isEmpty (this : CircularQueue) : bool :=
  frontIndex this =? -1.

(** [length()] *)
Definition length (this : CircularQueue) : Z :=
  if frontIndex this =? -1 then 0
  else if rearIndex this >=? frontIndex this
  then rearIndex this - frontIndex this + 1
  else size this - (frontIndex this - rearIndex this - 1).

(** *** Iterators

    The object returned by [[Symbol.iterator]()] and [reverseIterator()]
    is a closure over two mutable locals ([index], [count]), the constant
    [totalItems], the array [storage] and [this].  [storage] is the
    queue's own array, not a copy, and [this.size] is read at each call:
    [next] therefore takes the queue as it is when [next] is called. *)
Record Iterator : Type := mkIterator {
  index : number;
  count : Z;
  totalItems : Z
}.

(** [{ value, done }] *)
Record IteratorResult : Type := mkIteratorResult {
  result_value : value T;
  done : bool
}.

(** [[Symbol.iterator]()] *)
Definition iterator (this : CircularQueue) : Iterator :=
  {| index := Int (frontIndex this); count := 0; totalItems := length this |}.

(** [reverseIterator()] *)
Definition reverseIterator (this : CircularQueue) : Iterator :=
  {| index := Int (rearIndex this); count := 0; totalItems := length this |}.

(** [(index + 1) % this.size] *)
Definition step_forward (this : CircularQueue) (i : number) : number :=
  match i with
  | Int z => js_rem (z + 1) (size this)
  | NaN => NaN
  end.

(** [(index - 1 + this.size) % this.size] *)
Definition step_backward (this : CircularQueue) (i : number) : number :=
  match i with
  | Int z => js_rem (z - 1 + size this) (size this)
  | NaN => NaN
  end.

(** [next] of the forward iterator. *)
Definition next (this : CircularQueue) (it : Iterator)
    : IteratorResult * Iterator :=
  if (count it >=? totalItems it) || num_eqb (-1) (index it)
  then ({| result_value := undefined; done := true |}, it)
  else
    let value := read (queue this) (index it) in
    ({| result_value := value; done := false |},
     {| index := step_forward this (index it);
        count := count it + 1;
        totalItems := totalItems it |}).

(** [next] of the reverse iterator. *)
Definition reverse_next (this : CircularQueue) (it : Iterator)
    : IteratorResult * Iterator :=
  if (count it >=? totalItems it) || num_eqb (-1) (index it)
  then ({| result_value := undefined; done := true |}, it)
  else
    let value := read (queue this) (index it) in
    ({| result_value := value; done := false |},
     {| index := step_backward this (index it);
        count := count it + 1;
        totalItems := totalItems it |}).

(** A consumer that calls [next] until [done], as [for ... of] and the
    [while (!result.done)] loop of the examples do, on a queue that is not
    mutated meanwhile.  [None]: [fuel] calls did not reach [done]. *)
Fixpoint consume (fuel : nat)
    (next : CircularQueue -> Iterator -> IteratorResult * Iterator)
    (this : CircularQueue) (it : Iterator) : option (list (value T)) :=
  match fuel with
  | O => None
  | S fuel' =>
      let (r, it') := next this it in
      if done r then Some []
      else cons (result_value r) <$> consume fuel' next this it'
  end.

End CircularQueue.

Arguments CircularQueue T : clear implicits.
Arguments Iterator : clear implicits.
Arguments IteratorResult T : clear implicits.

(** ** Clients: sequences of operations *)

(** One call made by a client of the queue. *)
Inductive op (T : Type) : Type :=
  | Enqueue (item : T)
  | Dequeue.
Arguments Enqueue {T} item.
Arguments Dequeue {T}.

(** The state an outcome leaves the object in. *)
Definition state_after {S A : Type} (o : outcome S A) : S :=
  match o with
  | Returns _ s => s
  | Throws _ s => s
  end.

Section Client.
Context {T : Type}.

(** The call itself; [enqueue] is [void] and its call evaluates to
    [undefined]. *)
Definition perform (o : op T) (this : CircularQueue T)
    : outcome (CircularQueue T) (value T) :=
  match o with
  | Enqueue item =>
      match enqueue item this with
      | Returns _ this' => Returns undefined this'
      | Throws e this' => Throws e this'
      end
  | Dequeue => dequeue this
  end.

(** A client that makes the calls in turn and catches what they throw:
    the state of the queue at the end. *)
Definition exec (ops : list (op T)) (this : CircularQueue T) : CircularQueue T :=
  fold_left (fun q o => state_after (perform o q)) ops this.

(** A client that makes the calls in turn and stops at the first throw
    ([None]); otherwise the values the [dequeue]s returned, in order, and
    the state at the end. *)
Fixpoint run (ops : list (op T)) (this : CircularQueue T)
    : option (list (value T) * CircularQueue T) :=
  match ops with
  | [] => Some ([], this)
  | Enqueue item :: ops' =>
      match enqueue item this with
      | Returns _ this' => run ops' this'
      | Throws _ _ => None
      end
  | Dequeue :: ops' =>
      match dequeue this with
      | Returns v this' =>
          match run ops' this' with
          | Some (vs, this'') => Some (v :: vs, this'')
          | None => None
          end
      | Throws _ _ => None
      end
  end.

(** The items a sequence of calls enqueues, in order. *)
Fixpoint enqueued (ops : list (op T)) : list T :=
  match ops with
  | [] => []
  | Enqueue item :: ops' => item :: enqueued ops'
  | Dequeue :: ops' => enqueued ops'
  end.

(** The number of [dequeue] calls of a sequence. *)
Fixpoint dequeues (ops : list (op T)) : nat :=
  match ops with
  | [] => O
  | Enqueue _ :: ops' => dequeues ops'
  | Dequeue :: ops' => S (dequeues ops')
  end.

(** A sequence of calls that, started with [n] elements in a queue of
    capacity [cap], never enqueues at [cap] elements and never dequeues at
    none. *)
Fixpoint admissible (cap n : Z) (ops : list (op T)) : bool :=
  match ops with
  | [] => true
  | Enqueue _ :: ops' => (n <? cap) && admissible cap (n + 1) ops'
  | Dequeue :: ops' => (0 <? n) && admissible cap (n - 1) ops'
  end.

(** ** The state invariant and the abstraction *)

(** Positive capacity; both indices are the sentinel, or both are slots
    of the array. *)
Definition Inv (this : CircularQueue T) : Prop :=
  0 < size this /\
  ((frontIndex this = -1 /\ rearIndex this = -1) \/
   (0 <= frontIndex this < size this /\ 0 <= rearIndex this < size this)).

(** The slot of the [i]-th oldest element. *)
Definition slot (this : CircularQueue T) (i : Z) : Z :=
  (frontIndex this + i) mod size this.

(** The slot of the [i]-th newest element. *)
Definition rslot (this : CircularQueue T) (i : Z) : Z :=
  (rearIndex this - i) mod size this.

(** The live elements, oldest first: what the slots from [frontIndex]
    to [rearIndex] hold. *)
Definition window (this : CircularQueue T) : list (value T) :=
  (fun i : nat => read (queue this) (Int (slot this (Z.of_nat i))))
    <$> seq 0 (Z.to_nat (length this)).

(** The queue holds exactly the elements [l], oldest first. *)
Definition Rep (this : CircularQueue T) (l : list T) : Prop :=
  Inv this /\
  length this = Z.of_nat (List.length l) /\
  forall i : nat, (i < List.length l)%nat ->
    queue this !! slot this (Z.of_nat i) = l !! i.

End Client.

(** ** Concrete queues used as instances *)

(** The queue after [new CircularQueue<string>(3)], [enqueue] of A, B, C,
    one [dequeue], and [enqueue] of D: the rear index has wrapped. *)
Definition wrapped_ops : list (op string) :=
  [Enqueue "A"; Enqueue "B"; Enqueue "C"; Dequeue; Enqueue "D"]%string.

Definition empty3 : CircularQueue string :=
  {| queue := ∅; frontIndex := -1; rearIndex := -1; size := 3 |}.

Definition wrapped3 : CircularQueue string := exec wrapped_ops empty3.

(** The queue [new CircularQueue<string>(0)] builds, and the state it is in
    after [enqueue] of A. *)
Definition empty0 : CircularQueue string :=
  {| queue := ∅; frontIndex := -1; rearIndex := -1; size := 0 |}.

Definition one0 : CircularQueue string :=
  {| queue := {[0 := "A"%string]}; frontIndex := 0; rearIndex := 0; size := 0 |}.

(** The same queue holding A only. *)
Definition one3 : CircularQueue string :=
  exec [Enqueue "A"]%string empty3.

(** The same queue filled to its size: A, B, C. *)
Definition full3 : CircularQueue string :=
  exec [Enqueue "A"; Enqueue "B"; Enqueue "C"]%string empty3.

(** ** LimitedQueue<T>

    The subclass of the chapter on advanced queue methods.  Its constructor
    only calls [super(size)]; it overrides [enqueue] and inherits the other
    methods, which never call [enqueue]. *)
Module LimitedQueue.
Section Methods.
Context {T : Type}.

(** [constructor(size)]: [super(size)] *)
Definition constructor (size : Z) : exn + CircularQueue T :=
  constructor size.

(** [enqueue(item)]: the size test, then [super.enqueue(item)] *)
Definition enqueue (item : T) (this : CircularQueue T)
    : outcome (CircularQueue T) unit :=
  if length this >=? size this
  then Throws (Error "Queue has reached its size limit") this
  else enqueue item this.

(** One call made by a client of a [LimitedQueue]. *)
Definition perform (o : op T) (this : CircularQueue T)
    : outcome (CircularQueue T) (value T) :=
  match o with
  | Enqueue item =>
      match enqueue item this with
      | Returns _ this' => Returns undefined this'
      | Throws e this' => Throws e this'
      end
  | Dequeue => dequeue this
  end.

(** A client that makes the calls in turn and catches what they throw. *)
Definition exec (ops : list (op T)) (this : CircularQueue T) : CircularQueue T :=
  fold_left (fun q o => state_after (perform o q)) ops this.

End Methods.
End LimitedQueue.

(** ** Arithmetic of the indices *)

(** Case analysis on the integer tests of the methods. *)
Ltac ztests :=
  repeat match goal with
  | |- context [?a >=? ?b] => rewrite (Z.geb_leb a b)
  | |- context [?a =? ?b] => destruct (Z.eqb_spec a b)
  | |- context [?a <=? ?b] => destruct (Z.leb_spec a b)
  | |- context [?a <? ?b] => destruct (Z.ltb_spec a b)
  end; simpl; try lia.

(** Reduction of field projections and boolean connectives only. *)
Ltac fields :=
  cbn [queue frontIndex rearIndex size index count totalItems
       result_value done andb orb negb].

(** Evaluation of the invariant on a concrete queue that is not empty. *)
Ltac eval_inv := unfold Inv; vm_compute; split; [easy | right; easy].

Lemma rem_pred_front (f n : Z) :
  3 <= n -> 0 <= f < n -> Z.rem (f - 1) (n - 1) = f - 1.
Proof.
  intros Hn Hf. destruct (Z.eq_dec f 0) as [-> | Hf0].
  - change (0 - 1) with (- (1)). rewrite Z.rem_opp_l' , Z.rem_small; lia.
  - apply Z.rem_small. lia.
Qed.

Lemma rem_minus_two (k : Z) : 0 < k -> Z.rem (-2) k <> -1.
Proof.
  intros Hk. change (-2) with (- (2)). rewrite Z.rem_opp_l'.
  destruct (Z.eq_dec k 1) as [-> | ?]; [discriminate |].
  destruct (Z.eq_dec k 2) as [-> | ?]; [discriminate |].
  rewrite Z.rem_small; lia.
Qed.

Lemma succ_mod (r n : Z) :
  0 <= r < n -> (r + 1) mod n = if r =? n - 1 then 0 else r + 1.
Proof.
  intros Hr. ztests.
  - subst r. replace (n - 1 + 1) with n by lia. apply Z.mod_same. lia.
  - apply Z.mod_small. lia.
Qed.

Lemma mod_inj_window (f i j n : Z) :
  0 <= i < n -> 0 <= j < n -> (f + i) mod n = (f + j) mod n -> i = j.
Proof.
  intros Hi Hj E.
  assert (Hd : ((f + i) - (f + j)) mod n = 0).
  { rewrite Zminus_mod, E, Z.sub_diag. apply Z.mod_0_l. lia. }
  replace (f + i - (f + j)) with (i - j) in Hd by lia.
  apply Z.mod_divide in Hd; [| lia]. destruct Hd as [k Hk].
  destruct (Z.eq_dec k 0) as [-> | Hk0]; [lia |].
  assert (k <= -1 \/ 1 <= k) as [Hneg | Hpos] by lia; nia.
Qed.

Section Laws.
Context {T : Type}.
Implicit Types (this : CircularQueue T) (item : T) (l : list T).

(** *** The invariant *)

Lemma Inv_constructor (cap : Z) this :
  0 < cap -> constructor cap = inr this ->
  Inv this /\ size this = cap /\ frontIndex this = -1 /\ queue this = ∅.
Proof.
  unfold constructor, Inv. intros Hc E.
  destruct (valid_array_length cap); [| discriminate].
  injection E as <-. simpl. auto.
Qed.

Lemma length_range this : Inv this -> 0 <= length this <= size this.
Proof.
  unfold Inv, length. intros [Hn [[-> ->] | [Hf Hr]]]; ztests.
Qed.

Lemma length_modular this :
  Inv this -> frontIndex this <> -1 ->
  length this = (rearIndex this - frontIndex this + size this) mod size this + 1.
Proof.
  unfold Inv, length. intros [Hn [[-> ->] | [Hf Hr]]] Hne; [done |]. ztests.
  - replace (rearIndex this - frontIndex this + size this)
      with (rearIndex this - frontIndex this + 1 * size this) by lia.
    rewrite Z.mod_add, Z.mod_small; lia.
  - rewrite Z.mod_small; lia.
Qed.

(** What [enqueue] does on a state that satisfies the invariant: it throws
    and leaves the state alone, when the queue is full, and also in the
    one-element state of a queue of size 2; otherwise it stores the item in
    the slot after the rear one. *)
Lemma enqueue_cases item this :
  Inv this ->
  (enqueue item this = Throws (Error "Queue is full") this /\
   (length this = size this \/
    (size this = 2 /\ frontIndex this = 0 /\ rearIndex this = 0)))
  \/
  (length this < size this /\
   enqueue item this =
     Returns tt
       {| queue := <[(if isEmpty this then 0
                      else (rearIndex this + 1) mod size this) := item]>
                     (queue this);
          frontIndex := if isEmpty this then 0 else frontIndex this;
          rearIndex := if isEmpty this then 0
                       else (rearIndex this + 1) mod size this;
          size := size this |}).
Proof.
  destruct this as [m f r n].
  unfold Inv, enqueue, length, isEmpty, js_rem, num_eqb; fields.
  intros [Hn [[-> ->] | [Hf Hr]]].
  - right. change (-1 =? -1) with true. change (-1 =? 0) with false.
    change (-1 - 1) with (-2). fields. split; [lia |].
    destruct (Z.eqb_spec (n - 1) 0) as [_ | Hk]; [done |].
    destruct (Z.eqb_spec (-1) (Z.rem (-2) (n - 1))) as [E | _]; [| done].
    symmetry in E. apply rem_minus_two in E; [done | lia].
  - destruct (Z.eqb_spec f (-1)) as [? | _]; [lia |].
    rewrite succ_mod by done.
    destruct (Z.eq_dec n 1) as [-> | Hn1].
    { assert (f = 0) as -> by lia. assert (r = 0) as -> by lia.
      left. simpl. auto. }
    destruct (Z.eq_dec n 2) as [-> | Hn2].
    { change (2 - 1) with 1. rewrite Z.rem_1_r.
      assert (Hf' : f = 0 \/ f = 1) by lia.
      assert (Hr' : r = 0 \/ r = 1) by lia.
      destruct Hf' as [-> | ->], Hr' as [-> | ->]; simpl; auto.
      left. split; [done |]. right. auto. }
    destruct (Z.eqb_spec (n - 1) 0) as [? | _]; [lia |].
    rewrite rem_pred_front by lia.
    destruct (Z.eqb_spec f 0) as [-> | Hf0]; fields.
    + destruct (Z.eqb_spec r (n - 1)) as [-> | Hr1]; fields.
      * left. split; [done |]. left. ztests.
      * destruct (Z.eqb_spec r (0 - 1)) as [? | _]; [lia |].
        right. split; [| done]. ztests.
    + destruct (Z.eqb_spec r (f - 1)) as [-> | Hrf]; fields.
      * left. split; [done |]. left. ztests.
      * right. split; [ztests |].
        destruct (Z.eqb_spec r (n - 1)); done.
Qed.

(** What [dequeue] does on a state that satisfies the invariant. *)
Lemma dequeue_cases this :
  Inv this ->
  (isEmpty this = true /\
   dequeue this = Throws (Error "Queue is empty") this)
  \/
  (isEmpty this = false /\
   dequeue this =
     Returns (read (queue this) (Int (frontIndex this)))
       {| queue := queue this;
          frontIndex := if frontIndex this =? rearIndex this then -1
                        else (frontIndex this + 1) mod size this;
          rearIndex := if frontIndex this =? rearIndex this then -1
                       else rearIndex this;
          size := size this |}).
Proof.
  destruct this as [m f r n].
  unfold Inv, dequeue, isEmpty; fields.
  intros [Hn [[-> ->] | [Hf Hr]]]; [left; done | right].
  destruct (Z.eqb_spec f (-1)) as [? | _]; [lia |]. split; [done |].
  rewrite succ_mod by done.
  destruct (Z.eqb_spec f r), (Z.eqb_spec f (n - 1)); done.
Qed.

Lemma enqueue_returns item this (u : unit) this' :
  Inv this -> enqueue item this = Returns u this' ->
  Inv this' /\ size this' = size this /\ length this' = length this + 1.
Proof.
  intros HI E. destruct (enqueue_cases item this HI) as [[E' _] | [Hlt E']];
    rewrite E' in E; [discriminate |].
  injection E as <- <-. clear E'. revert HI Hlt.
  destruct this as [m f r n]. unfold Inv, length, isEmpty; fields.
  intros [Hn [[-> ->] | [Hf Hr]]] Hlt.
  - change (-1 =? -1) with true. fields. change (0 =? -1) with false.
    change (0 >=? 0) with true. lia.
  - destruct (Z.eqb_spec f (-1)) as [? | _]; [lia |].
    rewrite succ_mod by done. revert Hlt. ztests.
Qed.

Lemma dequeue_returns this (v : value T) this' :
  Inv this -> dequeue this = Returns v this' ->
  Inv this' /\ size this' = size this /\ queue this' = queue this /\
  length this' = length this - 1 /\
  v = read (queue this) (Int (frontIndex this)).
Proof.
  intros HI E. destruct (dequeue_cases this HI) as [[_ E'] | [Hne E']];
    rewrite E' in E; [discriminate |].
  injection E as <- <-. clear E'. revert HI Hne.
  destruct this as [m f r n]. unfold Inv, length, isEmpty; fields.
  intros [Hn [[-> ->] | [Hf Hr]]] Hne; [discriminate |].
  rewrite succ_mod by done. ztests; repeat split; (reflexivity || lia).
Qed.

(** Every call, returning or throwing, keeps the invariant and the
    capacity. *)
Lemma Inv_perform (o : op T) this :
  Inv this ->
  Inv (state_after (perform o this)) /\
  size (state_after (perform o this)) = size this.
Proof.
  intros HI. destruct o as [item |]; unfold perform.
  - destruct (enqueue_cases item this HI) as [[E _] | [_ E]].
    + rewrite E. done.
    + destruct (enqueue item this) as [u this' | e this'] eqn:E';
        [| discriminate].
      apply enqueue_returns in E' as (? & ? & ?); done.
  - destruct (dequeue_cases this HI) as [[_ E] | [_ E]].
    + rewrite E. done.
    + destruct (dequeue this) as [v this' | e this'] eqn:E';
        [| discriminate].
      apply dequeue_returns in E' as (? & ? & ?); done.
Qed.

Lemma Inv_exec (ops : list (op T)) this :
  Inv this -> Inv (exec ops this) /\ size (exec ops this) = size this.
Proof.
  revert this. induction ops as [| o ops IH]; intros this HI; [done |].
  destruct (Inv_perform o this HI) as [HI' Hs].
  destruct (IH _ HI') as [HI'' Hs'].
  unfold exec in *. simpl. split; [done | congruence].
Qed.

(** *** The abstraction: the queue as the list of its live elements *)

Lemma slot_front this :
  Inv this -> frontIndex this <> -1 -> slot this 0 = frontIndex this.
Proof.
  unfold Inv, slot. intros [Hn [[-> _] | [Hf _]]] Hne; [done |].
  rewrite Z.add_0_r. apply Z.mod_small. done.
Qed.

(** The slot after the rear one is the slot of the next element. *)
Lemma slot_length this :
  Inv this -> frontIndex this <> -1 ->
  slot this (length this) = (rearIndex this + 1) mod size this.
Proof.
  unfold Inv, slot, length. intros [Hn [[-> _] | [Hf Hr]]] Hne; [done |].
  destruct (Z.eqb_spec (frontIndex this) (-1)) as [? | _]; [done |].
  rewrite Z.geb_leb. destruct (Z.leb_spec (frontIndex this) (rearIndex this)).
  - f_equal. lia.
  - replace (frontIndex this +
             (size this - (frontIndex this - rearIndex this - 1)))
      with (rearIndex this + 1 + 1 * size this) by lia.
    apply Z.mod_add. lia.
Qed.

Lemma Rep_constructor (cap : Z) this :
  0 < cap -> constructor cap = inr this -> Rep this [].
Proof.
  intros Hc E. destruct (Inv_constructor cap this Hc E) as (HI & _ & Hf & _).
  unfold Rep, length. rewrite Hf. split; [done |]. split; [done |].
  intros i Hi. simpl in Hi. lia.
Qed.

Lemma Rep_window this l : Rep this l -> window this = val <$> l.
Proof.
  intros (HI & Hlen & Hslots). unfold window.
  rewrite Hlen, Nat2Z.id. apply list_eq. intros i.
  rewrite !list_lookup_fmap.
  destruct (decide (i < List.length l)%nat) as [Hi | Hi].
  - rewrite lookup_seq_lt by done. simpl. unfold read.
    rewrite (Hslots i Hi).
    destruct (lookup_lt_is_Some_2 l i Hi) as [x ->]. done.
  - rewrite lookup_seq_ge by lia. rewrite lookup_ge_None_2 by lia. done.
Qed.

(** [enqueue] on a queue that is not full, whose size is not 2, appends. *)
Lemma Rep_enqueue item this l :
  Rep this l -> size this <> 2 -> length this < size this ->
  exists this', enqueue item this = Returns tt this' /\ Rep this' (l ++ [item]).
Proof.
  intros (HI & Hlen & Hslots) Hn2 Hlt.
  destruct (enqueue_cases item this HI) as [[_ [Hfull | [? _]]] | [_ E]];
    [lia | done |].
  eexists. split; [exact E |].
  destruct (enqueue_returns _ _ _ _ HI E) as (HI' & _ & Hlen').
  split; [done |]. split.
  { rewrite Hlen', Hlen, length_app. simpl. lia. }
  clear E HI' Hlen'. intros i Hi. rewrite length_app in Hi. simpl in Hi.
  unfold slot, isEmpty in *. fields.
  destruct (Z.eqb_spec (frontIndex this) (-1)) as [He | Hne].
  - assert (List.length l = 0%nat) as Hl0.
    { unfold length in Hlen. rewrite He in Hlen. simpl in Hlen. lia. }
    destruct l; [| discriminate]. assert (i = 0%nat) as -> by (simpl in Hi; lia).
    simpl. rewrite Z.mod_0_l by (destruct HI; lia). apply lookup_insert_eq.
  - pose proof (slot_length this HI Hne) as Hs. unfold slot in Hs.
    pose proof (length_range this HI) as Hr.
    destruct (decide (i = List.length l)) as [-> | Hil].
    + rewrite <- Hlen, Hs, lookup_insert_eq.
      rewrite lookup_app_r, Nat.sub_diag by done. done.
    + rewrite lookup_insert_ne.
      * rewrite lookup_app_l by lia. apply Hslots. lia.
      * rewrite <- Hs, Hlen. intros Hx.
        apply mod_inj_window in Hx; lia.
Qed.

(** [dequeue] on a queue that holds [x :: l] returns [x] and leaves [l]. *)
Lemma Rep_dequeue (x : T) this l :
  Rep this (x :: l) ->
  exists this', dequeue this = Returns (val x) this' /\ Rep this' l.
Proof.
  intros (HI & Hlen & Hslots). simpl in Hlen.
  destruct (dequeue_cases this HI) as [[He _] | [He E]].
  { unfold isEmpty in He. unfold length in Hlen. rewrite He in Hlen. lia. }
  assert (Hne : frontIndex this <> -1).
  { unfold isEmpty in He. intros Hx. rewrite Hx in He. discriminate. }
  assert (Hx : read (queue this) (Int (frontIndex this)) = val x).
  { assert (H0 : queue this !! slot this (Z.of_nat 0) = Some x)
      by (apply (Hslots 0%nat); simpl; lia).
    change (Z.of_nat 0) with 0 in H0.
    rewrite (slot_front this HI Hne) in H0. unfold read. rewrite H0. done. }
  rewrite Hx in E. eexists. split; [exact E |].
  destruct (dequeue_returns _ _ _ HI E) as (HI' & _ & _ & Hlen' & _).
  split; [done |]. split; [lia |].
  clear E HI' Hlen'. intros i Hi. unfold slot in *. fields.
  destruct (Z.eqb_spec (frontIndex this) (rearIndex this)) as [Hfr | Hfr].
  - exfalso. unfold length in Hlen. rewrite Hfr in Hlen. revert Hlen. ztests.
  - rewrite Zplus_mod_idemp_l.
    replace (frontIndex this + 1 + Z.of_nat i)
      with (frontIndex this + Z.of_nat (S i)) by lia.
    rewrite Hslots by (simpl; lia). done.
Qed.

(** *** Sequences of calls *)

(** On a queue whose size is not 2, an admissible sequence of calls runs
    to its end without a throw, the [dequeue]s return the oldest elements
    in order, and the rest stays in the queue. *)
Lemma run_admissible (ops : list (op T)) :
  forall this l,
    Rep this l -> size this <> 2 ->
    admissible (size this) (Z.of_nat (List.length l)) ops = true ->
    exists this',
      run ops this
        = Some (val <$> take (dequeues ops) (l ++ enqueued ops), this') /\
      Rep this' (drop (dequeues ops) (l ++ enqueued ops)).
Proof.
  induction ops as [| [item |] ops IH]; intros this l HR Hn2 Hadm.
  - exists this. simpl. rewrite app_nil_r. done.
  - simpl in Hadm. apply andb_prop in Hadm as [Hlt Hadm].
    apply Z.ltb_lt in Hlt.
    assert (Hlen : length this = Z.of_nat (List.length l)) by apply HR.
    destruct (Rep_enqueue item this l HR Hn2) as (this1 & E & HR1); [lia |].
    assert (Hs : size this1 = size this).
    { apply (enqueue_returns item this tt this1); [apply HR | done]. }
    destruct (IH this1 (l ++ [item]) HR1) as (this' & Hrun & HR').
    { congruence. }
    { rewrite Hs, length_app. simpl.
      replace (Z.of_nat (List.length l + 1)) with (Z.of_nat (List.length l) + 1)
        by lia. done. }
    exists this'. simpl. rewrite E. rewrite <- app_assoc in Hrun, HR'. done.
  - simpl in Hadm. apply andb_prop in Hadm as [Hpos Hadm].
    apply Z.ltb_lt in Hpos.
    destruct l as [| x l]; [simpl in Hpos; lia |].
    destruct (Rep_dequeue x this l HR) as (this1 & E & HR1).
    assert (Hs : size this1 = size this).
    { apply (dequeue_returns this (val x) this1); [apply HR | done]. }
    destruct (IH this1 l HR1) as (this' & Hrun & HR').
    { congruence. }
    { rewrite Hs. simpl List.length in Hadm.
      replace (Z.of_nat (S (List.length l)) - 1)
        with (Z.of_nat (List.length l)) in Hadm by lia. done. }
    exists this'. simpl. rewrite E, Hrun. done.
Qed.

(** On every queue, a sequence of calls that runs to its end without a
    throw changes [length()] by the enqueues minus the dequeues, and
    returns one value per [dequeue]. *)
Lemma run_length (ops : list (op T)) :
  forall this outs this',
    Inv this -> run ops this = Some (outs, this') ->
    Inv this' /\ size this' = size this /\
    length this' = length this + Z.of_nat (List.length (enqueued ops))
                               - Z.of_nat (dequeues ops) /\
    List.length outs = dequeues ops.
Proof.
  induction ops as [| [item |] ops IH]; intros this outs this' HI Hrun.
  - injection Hrun as <- <-. simpl. split; [done |]. split; [done |]. lia.
  - simpl in Hrun.
    destruct (enqueue item this) as [u this1 | e this1] eqn:E; [| discriminate].
    apply enqueue_returns in E as (HI1 & Hs1 & Hl1); [| done].
    destruct (IH _ _ _ HI1 Hrun) as (HI' & Hs' & Hl' & Ho).
    simpl. split; [done |]. split; [congruence |]. lia.
  - simpl in Hrun.
    destruct (dequeue this) as [v this1 | e this1] eqn:E; [| discriminate].
    apply dequeue_returns in E as (HI1 & Hs1 & _ & Hl1 & _); [| done].
    destruct (run ops this1) as [[vs this2] |] eqn:Hrun1; [| discriminate].
    injection Hrun as <- <-.
    destruct (IH _ _ _ HI1 Hrun1) as (HI' & Hs' & Hl' & Ho).
    simpl. split; [done |]. split; [congruence |]. lia.
Qed.

(** *** Iterators *)

(** A traversal whose [k]-th index is [pos k]: when [next], called for the
    [c]-th time with [c] below [total], yields what the slot [pos c] holds
    and moves to [pos (c + 1)], and is done at [total], the consumer gets
    what the slots [pos c], [pos (c + 1)], ... hold, up to [total] values in
    all. *)
Lemma consume_positions
    (next : CircularQueue T -> Iterator -> IteratorResult T * Iterator)
    (pos : nat -> Z) this (total : nat) :
  (forall c : nat, (c < total)%nat ->
     next this {| index := Int (pos c); count := Z.of_nat c;
                  totalItems := Z.of_nat total |}
     = ({| result_value := read (queue this) (Int (pos c)); done := false |},
        {| index := Int (pos (S c));
           count := Z.of_nat (S c);
           totalItems := Z.of_nat total |})) ->
  (forall i, done (next this {| index := i; count := Z.of_nat total;
                                totalItems := Z.of_nat total |}).1 = true) ->
  forall (fuel c : nat),
    (c <= total)%nat -> (total - c < fuel)%nat ->
    consume fuel next this
      {| index := Int (pos c); count := Z.of_nat c;
         totalItems := Z.of_nat total |}
    = Some ((fun k => read (queue this) (Int (pos k))) <$> seq c (total - c)).
Proof.
  intros Hyield Hdone.
  induction fuel as [| fuel IH]; intros c Hc Hfuel; [lia |].
  destruct (decide (c = total)) as [-> | Hne].
  - simpl. specialize (Hdone (Int (pos total))).
    destruct (next this _) as [r it']. simpl in Hdone. rewrite Hdone.
    rewrite Nat.sub_diag. done.
  - simpl. rewrite Hyield by lia. fields. rewrite IH by lia.
    replace (total - c)%nat with (S (total - S c)) by lia.
    done.
Qed.

(** The two [next] closures on an index that is a slot. *)
Lemma next_yields (z : Z) (c total : nat) this :
  z <> -1 -> (c < total)%nat ->
  next this {| index := Int z; count := Z.of_nat c;
               totalItems := Z.of_nat total |}
  = ({| result_value := read (queue this) (Int z); done := false |},
     {| index := step_forward this (Int z);
        count := Z.of_nat (S c);
        totalItems := Z.of_nat total |}).
Proof.
  intros Hz Hc. unfold next, num_eqb; fields.
  destruct (Z.eqb_spec (-1) z) as [? | _]; [lia |].
  rewrite Z.geb_leb.
  destruct (Z.leb_spec (Z.of_nat total) (Z.of_nat c)) as [? | _]; [lia |].
  fields. do 3 f_equal. lia.
Qed.

Lemma reverse_next_yields (z : Z) (c total : nat) this :
  z <> -1 -> (c < total)%nat ->
  reverse_next this {| index := Int z; count := Z.of_nat c;
                       totalItems := Z.of_nat total |}
  = ({| result_value := read (queue this) (Int z); done := false |},
     {| index := step_backward this (Int z);
        count := Z.of_nat (S c);
        totalItems := Z.of_nat total |}).
Proof.
  intros Hz Hc. unfold reverse_next, num_eqb; fields.
  destruct (Z.eqb_spec (-1) z) as [? | _]; [lia |].
  rewrite Z.geb_leb.
  destruct (Z.leb_spec (Z.of_nat total) (Z.of_nat c)) as [? | _]; [lia |].
  fields. do 3 f_equal. lia.
Qed.

Lemma next_done (i : number) (total : Z) this :
  done (next this {| index := i; count := total; totalItems := total |}).1
  = true /\
  done (reverse_next this
          {| index := i; count := total; totalItems := total |}).1
  = true.
Proof.
  unfold next, reverse_next; fields. rewrite Z.geb_leb, Z.leb_refl. done.
Qed.

Lemma slot_step this (k : nat) :
  Inv this ->
  step_forward this (Int (slot this (Z.of_nat k)))
    = Int (slot this (Z.of_nat (S k))).
Proof.
  intros [Hn _]. unfold step_forward, js_rem, slot.
  destruct (Z.eqb_spec (size this) 0) as [? | _]; [lia |]. f_equal.
  rewrite Z.rem_mod_nonneg; [| | lia].
  - rewrite Zplus_mod_idemp_l. f_equal. lia.
  - pose proof (Z.mod_pos_bound (frontIndex this + Z.of_nat k) (size this)).
    lia.
Qed.

Lemma rslot_step this (k : nat) :
  Inv this ->
  step_backward this (Int (rslot this (Z.of_nat k)))
    = Int (rslot this (Z.of_nat (S k))).
Proof.
  intros [Hn _]. unfold step_backward, js_rem, rslot.
  destruct (Z.eqb_spec (size this) 0) as [? | _]; [lia |]. f_equal.
  rewrite Z.rem_mod_nonneg; [| | lia].
  - replace ((rearIndex this - Z.of_nat k) mod size this - 1 + size this)
      with ((rearIndex this - Z.of_nat k) mod size this - 1 + 1 * size this)
      by lia.
    rewrite Z.mod_add, Zminus_mod_idemp_l by lia. f_equal. lia.
  - pose proof (Z.mod_pos_bound (rearIndex this - Z.of_nat k) (size this)).
    lia.
Qed.

(** The [i]-th newest element is the [length() - 1 - i]-th oldest. *)
Lemma rslot_slot this (i : Z) :
  Inv this -> frontIndex this <> -1 ->
  rslot this i = slot this (length this - 1 - i).
Proof.
  intros HI Hne. pose proof (slot_length this HI Hne) as Hs.
  destruct HI as [Hn _]. unfold rslot, slot in *.
  replace (frontIndex this + (length this - 1 - i))
    with (frontIndex this + length this + (-1 - i)) by lia.
  rewrite <- Zplus_mod_idemp_l, Hs, Zplus_mod_idemp_l. f_equal. lia.
Qed.

Lemma rslot_window this :
  Inv this -> frontIndex this <> -1 ->
  (fun k : nat => read (queue this) (Int (rslot this (Z.of_nat k))))
    <$> seq 0 (Z.to_nat (length this))
  = reverse (window this).
Proof.
  intros HI Hne. pose proof (length_range this HI) as Hr.
  unfold window. set (n := Z.to_nat (length this)).
  apply list_eq. intros i.
  destruct (decide (i < n)%nat) as [Hi | Hi].
  - rewrite reverse_lookup by (rewrite length_fmap, length_seq; done).
    rewrite length_fmap, length_seq, !list_lookup_fmap.
    rewrite !lookup_seq_lt by lia. simpl. rewrite rslot_slot by done.
    replace (length this - 1 - Z.of_nat i) with (Z.of_nat (n - S i))
      by (subst n; lia).
    done.
  - rewrite !lookup_ge_None_2; [done | |].
    + rewrite length_reverse, length_fmap, length_seq. lia.
    + rewrite length_fmap, length_seq. lia.
Qed.

Lemma window_length this :
  Inv this -> Z.of_nat (List.length (window this)) = length this.
Proof.
  intros HI. pose proof (length_range this HI). unfold window.
  rewrite length_fmap, length_seq. lia.
Qed.

Lemma slot_not_sentinel this (i : Z) : Inv this -> slot this i <> -1.
Proof.
  intros [Hn _] Hk. unfold slot in Hk.
  pose proof (Z.mod_pos_bound (frontIndex this + i) (size this)). lia.
Qed.

Lemma rslot_not_sentinel this (i : Z) : Inv this -> rslot this i <> -1.
Proof.
  intros [Hn _] Hk. unfold rslot in Hk.
  pose proof (Z.mod_pos_bound (rearIndex this - i) (size this)). lia.
Qed.

Lemma rslot_rear this :
  Inv this -> frontIndex this <> -1 -> rslot this 0 = rearIndex this.
Proof.
  unfold Inv, rslot. intros [Hn [[? _] | [_ Hr]]] Hne; [done |].
  rewrite Z.sub_0_r. apply Z.mod_small. done.
Qed.

(** The forward iterator of a queue that is not empty, run to exhaustion. *)
Lemma consume_forward this (fuel : nat) :
  Inv this -> frontIndex this <> -1 ->
  (Z.to_nat (length this) < fuel)%nat ->
  consume fuel next this (iterator this) = Some (window this).
Proof.
  intros HI Hne Hfuel. pose proof (length_range this HI) as Hr.
  unfold iterator, window.
  rewrite <- (slot_front this HI Hne), <- (Z2Nat.id (length this)) at 1 by lia.
  set (total := Z.to_nat (length this)) in *.
  rewrite <- (Nat.sub_0_r total) at 2.
  refine (consume_positions next (fun k => slot this (Z.of_nat k))
            this total _ _ fuel 0%nat _ _); try lia.
  - intros c Hc. rewrite next_yields by (done || by apply slot_not_sentinel).
    by rewrite slot_step.
  - intros i. apply next_done.
Qed.

(** The reverse iterator of a queue that is not empty, run to exhaustion. *)
Lemma consume_reverse this (fuel : nat) :
  Inv this -> frontIndex this <> -1 ->
  (Z.to_nat (length this) < fuel)%nat ->
  consume fuel reverse_next this (reverseIterator this)
  = Some (reverse (window this)).
Proof.
  intros HI Hne Hfuel. pose proof (length_range this HI) as Hr.
  rewrite <- (rslot_window this HI Hne). unfold reverseIterator.
  rewrite <- (rslot_rear this HI Hne), <- (Z2Nat.id (length this)) at 1 by lia.
  set (total := Z.to_nat (length this)) in *.
  rewrite <- (Nat.sub_0_r total) at 2.
  refine (consume_positions reverse_next (fun k => rslot this (Z.of_nat k))
            this total _ _ fuel 0%nat _ _); try lia.
  - intros c Hc.
    rewrite reverse_next_yields by (done || by apply rslot_not_sentinel).
    by rewrite rslot_step.
  - intros i. apply next_done.
Qed.

(** A queue of size 2 never holds two elements: whatever the calls, its
    indices are both the sentinel or both 0, and [length()] is at most 1. *)
Lemma size_two_holds_one (ops : list (op T)) this :
  size this = 2 ->
  (frontIndex this = -1 /\ rearIndex this = -1) \/
  (frontIndex this = 0 /\ rearIndex this = 0) ->
  size (exec ops this) = 2 /\
  ((frontIndex (exec ops this) = -1 /\ rearIndex (exec ops this) = -1) \/
   (frontIndex (exec ops this) = 0 /\ rearIndex (exec ops this) = 0)) /\
  length (exec ops this) <= 1.
Proof.
  revert this. induction ops as [| o ops IH]; intros [m f r n] Hs Hfr;
    simpl in Hs, Hfr; subst n.
  - split; [done |]. split; [done |].
    destruct Hfr as [[-> ->] | [-> ->]]; vm_compute; discriminate.
  - change (exec (o :: ops) ?q) with (exec ops (state_after (perform o q))).
    destruct o as [item |], Hfr as [[-> ->] | [-> ->]];
      apply IH; simpl; auto.
Qed.

(** *** The queue laws *)

(** The FIFO law on every queue whose size is 1 or at least 3: a sequence
    of calls that never enqueues into a queue holding [size] elements and
    never dequeues from one holding none runs without a throw, and its
    [dequeue]s return a prefix of the enqueued items, in insertion order;
    the items not yet dequeued are what the queue holds. *)
Theorem fifo_law (cap : Z) (q0 : CircularQueue T) (ops : list (op T)) :
  0 < cap -> cap <> 2 -> constructor cap = inr q0 ->
  admissible cap 0 ops = true ->
  exists q,
    run ops q0 = Some (val <$> take (dequeues ops) (enqueued ops), q) /\
    Rep q (drop (dequeues ops) (enqueued ops)).
Proof.
  intros Hc Hn2 E Hadm.
  destruct (Inv_constructor cap q0 Hc E) as (_ & Hs & _).
  apply (run_admissible ops q0 []).
  - by apply (Rep_constructor cap).
  - congruence.
  - rewrite Hs. done.
Qed.

(** C1 fails at size 2.  The sequence enqueue [a], enqueue [b], dequeue,
    dequeue is admissible for a queue of size 2, yet the second [enqueue]
    throws "Queue is full" on a queue whose [length()] is 1: the sequence
    does not run to its end, and after the first [dequeue] the queue is
    empty, so [b] is never returned. *)
Theorem fifo_fails_at_size_two (a b : T) :
  let q0 := {| queue := ∅; frontIndex := -1; rearIndex := -1; size := 2 |} in
  let q1 := {| queue := {[0 := a]}; frontIndex := 0; rearIndex := 0;
               size := 2 |} in
  constructor 2 = inr q0 /\
  admissible 2 0 [Enqueue a; Enqueue b; Dequeue; Dequeue] = true /\
  enqueue a q0 = Returns tt q1 /\
  length q1 = 1 /\
  enqueue b q1 = Throws (Error "Queue is full") q1 /\
  run [Enqueue a; Enqueue b; Dequeue; Dequeue] q0 = None /\
  exec [Enqueue a; Enqueue b; Dequeue] q0
    = {| queue := {[0 := a]}; frontIndex := -1; rearIndex := -1; size := 2 |}.
Proof. cbv zeta. repeat split. Qed.

(** C2, for negative sizes.  A negative size makes the constructor throw:
    the allocation of the backing array raises a [RangeError].  (Size 0 is
    accepted, see [constructor_zero_succeeds].) *)
Theorem constructor_negative (cap : Z) :
  cap < 0 -> constructor (T := T) cap = inl RangeError.
Proof.
  intros Hc. unfold constructor, valid_array_length.
  destruct (Z.leb_spec 0 cap) as [? | _]; [lia | done].
Qed.

(** C3, for positive sizes.  [enqueue] on a queue of positive size whose
    [length()] equals its size throws "Queue is full" and leaves the queue
    as it was: both indices and the whole array.  (A queue of size 0 holds
    0 elements and accepts an item, see [enqueue_at_size_zero_returns].) *)
Theorem enqueue_full_throws item this :
  Inv this -> length this = size this ->
  enqueue item this = Throws (Error "Queue is full") this.
Proof.
  intros HI Hfull.
  destruct (enqueue_cases item this HI) as [[E _] | [Hlt _]]; [done | lia].
Qed.

(** C4.  [dequeue] on an empty queue throws "Queue is empty" and leaves
    the queue as it was; it returns no value. *)
Theorem dequeue_empty_throws this :
  isEmpty this = true ->
  dequeue this = Throws (Error "Queue is empty") this.
Proof. unfold isEmpty, dequeue. intros ->. done. Qed.

(** C5, for positive sizes.  After a sequence of calls that all succeed on
    a new queue of positive size [cap], [length()] is the number of enqueues
    minus the number of dequeues, and lies between 0 and [cap].  (A queue of
    size 0 reaches [length() = 1], see [length_at_size_zero_exceeds].) *)
Theorem length_counts (cap : Z) (q0 : CircularQueue T) (ops : list (op T))
    (outs : list (value T)) (q : CircularQueue T) :
  0 < cap -> constructor cap = inr q0 ->
  run ops q0 = Some (outs, q) ->
  length q = Z.of_nat (List.length (enqueued ops)) - Z.of_nat (dequeues ops) /\
  0 <= length q <= cap.
Proof.
  intros Hc E Hrun.
  destruct (Inv_constructor cap q0 Hc E) as (HI & Hs & Hf & _).
  destruct (run_length ops q0 outs q HI Hrun) as (HI' & Hs' & Hl & _).
  pose proof (length_range q HI') as Hr.
  assert (length q0 = 0) as H0 by (unfold length; rewrite Hf; done).
  split; lia.
Qed.

(** C6.  A queue of size 1: [enqueue(x)] succeeds and fills the queue, a
    second [enqueue] throws "Queue is full", [dequeue()] returns [x] and
    empties the queue, and the next [enqueue] succeeds. *)
Theorem size_one_scenario (x y z : T) :
  let q0 := {| queue := ∅; frontIndex := -1; rearIndex := -1; size := 1 |} in
  let q1 := {| queue := <[0 := x]> ∅; frontIndex := 0; rearIndex := 0;
               size := 1 |} in
  let q2 := {| queue := <[0 := x]> ∅; frontIndex := -1; rearIndex := -1;
               size := 1 |} in
  let q3 := {| queue := <[0 := z]> (<[0 := x]> ∅); frontIndex := 0;
               rearIndex := 0; size := 1 |} in
  constructor 1 = inr q0 /\
  enqueue x q0 = Returns tt q1 /\
  length q1 = size q1 /\
  enqueue y q1 = Throws (Error "Queue is full") q1 /\
  dequeue q1 = Returns (val x) q2 /\
  isEmpty q2 = true /\ length q2 = 0 /\
  enqueue z q2 = Returns tt q3 /\
  peek q3 = Returns (val z) q3.
Proof.
  cbv zeta. repeat split.
  all: unfold dequeue, peek, read; fields; by rewrite lookup_insert_eq.
Qed.

(** C7.  [peek()] never throws and never changes the queue.  On an empty
    queue it returns [null]; otherwise it returns the value that
    [dequeue()] returns on the same queue. *)
Theorem peek_spec this :
  exists v,
    peek this = Returns v this /\
    if isEmpty this then v = null
    else exists this', dequeue this = Returns v this'.
Proof.
  unfold peek, dequeue, isEmpty.
  destruct (frontIndex this =? -1); eexists; (split; [reflexivity |]);
    [done |].
  destruct (frontIndex this =? rearIndex this);
    [| destruct (frontIndex this =? size this - 1)]; eexists; reflexivity.
Qed.

(** C8.  On a queue that is not mutated meanwhile, the forward iterator
    run to exhaustion yields the live elements from the front slot to
    the rear slot, oldest first; the reverse iterator yields the same
    elements in the reverse order; each yields [length()] values.  Any
    number of [next] calls above [length()] reaches [done]. *)
Theorem iterators_reverse this (fuel : nat) :
  Inv this -> (Z.to_nat (length this) < fuel)%nat ->
  consume fuel next this (iterator this) = Some (window this) /\
  consume fuel reverse_next this (reverseIterator this)
    = Some (reverse (window this)) /\
  Z.of_nat (List.length (window this)) = length this /\
  List.length (reverse (window this)) = List.length (window this).
Proof.
  intros HI Hfuel.
  split; [| split; [| split; [by apply window_length | apply length_reverse]]].
  - destruct (Z.eq_dec (frontIndex this) (-1)) as [He | Hne];
      [| by apply consume_forward].
    destruct fuel as [| fuel]; [lia |].
    unfold iterator, window, length. rewrite He. done.
  - destruct (Z.eq_dec (frontIndex this) (-1)) as [He | Hne];
      [| by apply consume_reverse].
    destruct fuel as [| fuel]; [lia |].
    assert (rearIndex this = -1) as Hre.
    { destruct HI as [_ [[_ ?] | [? _]]]; [done | lia]. }
    unfold reverseIterator, window, length. rewrite He, Hre. done.
Qed.

(** C9, for positive sizes.  After any sequence of calls, throwing ones
    included, on a new queue of positive size [cap]: the front index is the
    sentinel exactly when the rear index is, exactly when the queue is
    empty; on a queue that is not empty both indices are slots of the array
    and [(rearIndex - frontIndex + cap) % cap + 1] is the number of
    elements, between 1 and [cap].  (A queue of size 0 leaves these bounds,
    see [indices_at_size_zero_out_of_range].) *)
Theorem state_invariant (cap : Z) (q0 : CircularQueue T) (ops : list (op T)) :
  0 < cap -> constructor cap = inr q0 ->
  let q := exec ops q0 in
  size q = cap /\
  (frontIndex q = -1 <-> rearIndex q = -1) /\
  (frontIndex q = -1 <-> isEmpty q = true) /\
  (frontIndex q = -1 <-> length q = 0) /\
  (frontIndex q <> -1 ->
   0 <= frontIndex q <= cap - 1 /\ 0 <= rearIndex q <= cap - 1 /\
   exists k, js_rem (rearIndex q - frontIndex q + cap) cap = Int k /\
             1 <= k + 1 <= cap /\ length q = k + 1).
Proof.
  intros Hc E q.
  destruct (Inv_constructor cap q0 Hc E) as (HI0 & Hs0 & _).
  destruct (Inv_exec ops q0 HI0) as [HI Hs]. fold q in HI, Hs.
  assert (Hcap : size q = cap) by congruence.
  pose proof (length_range q HI) as Hr.
  split; [done |]. split; [| split; [| split]].
  - destruct HI as [_ [[-> ->] | [? ?]]]; [done | lia].
  - unfold isEmpty. destruct (Z.eqb_spec (frontIndex q) (-1)); split; done.
  - split.
    + intros He. unfold length. rewrite He. done.
    + intros H0. destruct (Z.eq_dec (frontIndex q) (-1)) as [? | Hne]; [done |].
      pose proof (length_modular q HI Hne) as Hm.
      pose proof (Z.mod_pos_bound (rearIndex q - frontIndex q + size q)
                    (size q)). lia.
  - intros Hne. pose proof (length_modular q HI Hne) as Hm.
    rewrite Hcap in Hm.
    destruct HI as [_ [[? _] | [Hf Hre]]]; [done |]. rewrite Hcap in Hf, Hre.
    split; [lia |]. split; [lia |].
    exists ((rearIndex q - frontIndex q + cap) mod cap).
    unfold js_rem. destruct (Z.eqb_spec cap 0) as [? | _]; [lia |].
    rewrite Z.rem_mod_nonneg by lia.
    pose proof (Z.mod_pos_bound (rearIndex q - frontIndex q + cap) cap).
    split; [done |]. lia.
Qed.

(** C10.  A [dequeue] that returns does not write the array: the slot of
    the removed element still holds the returned value and every slot is
    as before.  The rear index changes only when the last element is
    removed, and then both indices become the sentinel. *)
Theorem dequeue_frame this (v : value T) this' :
  dequeue this = Returns v this' ->
  queue this' = queue this /\
  size this' = size this /\
  read (queue this') (Int (frontIndex this)) = v /\
  (if frontIndex this =? rearIndex this
   then frontIndex this' = -1 /\ rearIndex this' = -1
   else rearIndex this' = rearIndex this /\
        frontIndex this' = if frontIndex this =? size this - 1 then 0
                           else frontIndex this + 1).
Proof.
  unfold dequeue.
  destruct (frontIndex this =? -1); [discriminate |].
  destruct (frontIndex this =? rearIndex this);
    [| destruct (frontIndex this =? size this - 1)];
    intros E; injection E as <- <-; done.
Qed.

End Laws.

(** ** Instances *)

(** C2: a queue of size 0 is constructed without an error. *)
Lemma constructor_zero_succeeds :
  0 <= 0 /\
  constructor (T := string) 0
    = inr {| queue := ∅; frontIndex := -1; rearIndex := -1; size := 0 |}.
Proof. split; [lia | reflexivity]. Qed.

(** C3 at size 0: the new queue of size 0 holds as many elements as its
    size, namely none, and [enqueue] returns and stores the item instead of
    throwing. *)
Lemma enqueue_at_size_zero_returns :
  constructor 0 = inr empty0 /\
  length empty0 = size empty0 /\
  enqueue "A"%string empty0 = Returns tt one0 /\
  queue one0 !! 0 = Some "A"%string /\
  frontIndex one0 <> frontIndex empty0.
Proof. repeat split. vm_compute. discriminate. Qed.

(** C5 at size 0: one successful [enqueue] on the new queue of size 0, and
    [length()] is 1, above the size. *)
Lemma length_at_size_zero_exceeds :
  constructor 0 = inr empty0 /\
  run [Enqueue "A"%string] empty0 = Some ([], one0) /\
  length one0 = 1 /\
  size one0 = 0 /\
  ~ (0 <= length one0 <= size one0).
Proof. repeat split. vm_compute. intros [_ H]. by apply H. Qed.

(** C9 at size 0: after one [enqueue] on the new queue of size 0 the queue
    is not empty, its indices are 0, outside [0 .. size - 1], and the
    modular count [(rearIndex - frontIndex + size) % size + 1] is [NaN]. *)
Lemma indices_at_size_zero_out_of_range :
  constructor 0 = inr empty0 /\
  exec [Enqueue "A"%string] empty0 = one0 /\
  isEmpty one0 = false /\
  frontIndex one0 = 0 /\ rearIndex one0 = 0 /\
  ~ (0 <= frontIndex one0 <= size one0 - 1) /\
  ~ (0 <= rearIndex one0 <= size one0 - 1) /\
  js_rem (rearIndex one0 - frontIndex one0 + size one0) (size one0) = NaN /\
  ~ (1 <= length one0 <= size one0).
Proof.
  repeat split; vm_compute; intros [H1 H2]; try (by apply H2); by apply H1.
Qed.

(** What the queue of size 0 then does: it accepts one item, stored past
    the end of its array, and reports one element. *)
Example size_zero_accepts_one_item :
  let q0 : CircularQueue string :=
    {| queue := ∅; frontIndex := -1; rearIndex := -1; size := 0 |} in
  let q1 : CircularQueue string :=
    {| queue := {[0 := "A"%string]}; frontIndex := 0; rearIndex := 0;
       size := 0 |} in
  enqueue "A"%string q0 = Returns tt q1 /\
  length q1 = 1 /\
  enqueue "B"%string q1 = Throws (Error "Queue is full") q1.
Proof. cbv zeta. repeat split. Qed.

(** [new CircularQueue<string>(-1)] throws. *)
Lemma constructor_negative_witness :
  -1 < 0 /\ constructor (T := string) (-1) = inl RangeError.
Proof. split; [lia | apply (constructor_negative (-1)); lia]. Defined.

(** The size-3 queue holding A, B, C rejects D and stays as it is. *)
Lemma enqueue_full_throws_witness :
  Inv full3 /\ length full3 = size full3 /\
  enqueue "D"%string full3 = Throws (Error "Queue is full") full3.
Proof.
  assert (HI : Inv full3) by eval_inv.
  assert (Hfull : length full3 = size full3) by reflexivity.
  split; [exact HI |]. split; [exact Hfull |].
  exact (enqueue_full_throws "D"%string full3 HI Hfull).
Defined.

(** [dequeue] on the new size-3 queue. *)
Lemma dequeue_empty_throws_witness :
  isEmpty empty3 = true /\
  dequeue empty3 = Throws (Error "Queue is empty") empty3.
Proof.
  split; [reflexivity |]. apply (dequeue_empty_throws empty3). reflexivity.
Defined.

(** Four enqueues and one dequeue on a size-3 queue, ending in a state whose
    rear index is below its front index: [length()] is 3. *)
Lemma length_counts_witness :
  0 < 3 /\ constructor 3 = inr empty3 /\
  run wrapped_ops empty3 = Some ([val "A"%string], wrapped3) /\
  rearIndex wrapped3 < frontIndex wrapped3 /\
  length wrapped3 = 4 - 1 /\
  0 <= length wrapped3 <= 3.
Proof.
  assert (Hcap : 0 < 3) by lia.
  assert (Hnew : constructor 3 = inr empty3) by reflexivity.
  assert (Hrun : run wrapped_ops empty3 = Some ([val "A"%string], wrapped3))
    by (vm_compute; reflexivity).
  split; [exact Hcap |]. split; [exact Hnew |]. split; [exact Hrun |].
  split; [reflexivity |].
  exact (length_counts 3 empty3 wrapped_ops [val "A"%string] wrapped3
           Hcap Hnew Hrun).
Defined.

(** The wrap-around example: capacity 3, enqueue A, B, C, dequeue, enqueue
    D; the forward iterator yields B, C, D and the reverse one D, C, B. *)
Lemma iterators_reverse_witness :
  Inv wrapped3 /\ (Z.to_nat (length wrapped3) < 4)%nat /\
  consume 4 next wrapped3 (iterator wrapped3)
    = Some [val "B"; val "C"; val "D"]%string /\
  consume 4 reverse_next wrapped3 (reverseIterator wrapped3)
    = Some [val "D"; val "C"; val "B"]%string /\
  length wrapped3 = 3.
Proof.
  assert (HI : Inv wrapped3) by eval_inv.
  assert (Hfuel : (Z.to_nat (length wrapped3) < 4)%nat) by (vm_compute; lia).
  destruct (iterators_reverse wrapped3 4 HI Hfuel) as (Hf & Hb & Hl & _).
  split; [exact HI |]. split; [exact Hfuel |].
  split; [exact Hf |]. split; [exact Hb |]. reflexivity.
Defined.

(** The invariant on the wrapped state: front index 1, rear index 0,
    [(0 - 1 + 3) % 3 + 1 = 3] elements. *)
Lemma state_invariant_witness :
  0 < 3 /\ constructor 3 = inr empty3 /\
  size wrapped3 = 3 /\
  (frontIndex wrapped3 = -1 <-> rearIndex wrapped3 = -1) /\
  (frontIndex wrapped3 = -1 <-> isEmpty wrapped3 = true) /\
  (frontIndex wrapped3 = -1 <-> length wrapped3 = 0) /\
  (frontIndex wrapped3 <> -1 ->
   0 <= frontIndex wrapped3 <= 3 - 1 /\ 0 <= rearIndex wrapped3 <= 3 - 1 /\
   exists k, js_rem (rearIndex wrapped3 - frontIndex wrapped3 + 3) 3 = Int k /\
             1 <= k + 1 <= 3 /\ length wrapped3 = k + 1).
Proof.
  assert (Hcap : 0 < 3) by lia.
  assert (Hnew : constructor 3 = inr empty3) by reflexivity.
  split; [exact Hcap |]. split; [exact Hnew |].
  exact (state_invariant 3 empty3 wrapped_ops Hcap Hnew).
Defined.

(** [dequeue] on the wrapped state returns B from slot 1, which still
    holds B afterwards; the rear index stays 0. *)
Lemma dequeue_frame_witness :
  dequeue wrapped3 = Returns (val "B"%string) (exec [Dequeue] wrapped3) /\
  queue (exec [Dequeue] wrapped3) = queue wrapped3 /\
  read (queue (exec [Dequeue] wrapped3)) (Int (frontIndex wrapped3))
    = val "B"%string /\
  rearIndex (exec [Dequeue] wrapped3) = 0 /\
  frontIndex (exec [Dequeue] wrapped3) = 2.
Proof.
  assert (E : dequeue wrapped3
              = Returns (val "B"%string) (exec [Dequeue] wrapped3))
    by (vm_compute; reflexivity).
  destruct (dequeue_frame wrapped3 _ _ E) as (Hq & _ & Hread & _).
  split; [exact E |]. split; [exact Hq |]. split; [exact Hread |].
  vm_compute. split; reflexivity.
Defined.

(** ** Further laws of the queue and of its subclass *)

Section Further.
Context {T : Type}.
Implicit Types (this : CircularQueue T) (item : T) (l : list T).

Lemma length_zero_empty this :
  Inv this -> (length this = 0 <-> frontIndex this = -1).
Proof.
  intros HI. split.
  - intros H0. destruct (Z.eq_dec (frontIndex this) (-1)) as [? | Hne]; [done |].
    pose proof (length_modular this HI Hne) as Hm. destruct HI as [Hn _].
    pose proof (Z.mod_pos_bound (rearIndex this - frontIndex this + size this)
                  (size this)). lia.
  - intros He. unfold length. rewrite He. done.
Qed.

(** The one-element state of a queue of size 2 rejects every item. *)
Lemma enqueue_size_two_one_element item (m : gmap Z T) :
  enqueue item {| queue := m; frontIndex := 0; rearIndex := 0; size := 2 |}
  = Throws (Error "Queue is full")
      {| queue := m; frontIndex := 0; rearIndex := 0; size := 2 |}.
Proof. reflexivity. Qed.

(** [enqueue] returns exactly when the queue holds fewer elements than its
    size and is not the one-element state of a queue of size 2. *)
Theorem enqueue_returns_iff item this :
  Inv this ->
  (exists this', enqueue item this = Returns tt this') <->
  (length this < size this /\
   ~ (size this = 2 /\ frontIndex this = 0 /\ rearIndex this = 0)).
Proof.
  intros HI. split.
  - intros [this' E].
    destruct (enqueue_cases item this HI) as [[E' _] | [Hlt _]];
      [rewrite E' in E; discriminate |].
    split; [done |]. intros (Hs & Hf & Hr).
    destruct this as [m f r n]. simpl in Hs, Hf, Hr. subst f r n.
    rewrite enqueue_size_two_one_element in E. discriminate.
  - intros [Hlt Hnot].
    destruct (enqueue_cases item this HI) as [[_ [Hfull | Htwo]] | [_ E]];
      [lia | done | eauto].
Qed.

(** The indices of a queue of size 0, 1 or 2 are both the sentinel or both
    0, whatever the calls. *)
Lemma small_size_indices (n : Z) (ops : list (op T)) this :
  0 <= n <= 2 -> size this = n ->
  (frontIndex this = -1 /\ rearIndex this = -1) \/
  (frontIndex this = 0 /\ rearIndex this = 0) ->
  size (exec ops this) = n /\
  ((frontIndex (exec ops this) = -1 /\ rearIndex (exec ops this) = -1) \/
   (frontIndex (exec ops this) = 0 /\ rearIndex (exec ops this) = 0)).
Proof.
  intros Hn. revert this.
  induction ops as [| o ops IH]; intros [m f r n'] Hs Hfr;
    simpl in Hs, Hfr; subst n'; [done |].
  change (exec (o :: ops) ?q) with (exec ops (state_after (perform o q))).
  assert (Hn' : n = 0 \/ n = 1 \/ n = 2) by lia.
  destruct o as [item |], Hfr as [[-> ->] | [-> ->]], Hn' as [-> | [-> | ->]];
    apply IH; simpl; auto.
Qed.

(** A queue constructed with size 0, 1 or 2 holds at most one element:
    after any sequence of calls [length()] is at most 1, and when it is 1
    every [enqueue] throws "Queue is full". *)
Theorem small_sizes_hold_one (cap : Z) (q0 : CircularQueue T)
    (ops : list (op T)) :
  cap <= 2 -> constructor cap = inr q0 ->
  let q := exec ops q0 in
  length q <= 1 /\
  (length q = 1 ->
   forall item, enqueue item q = Throws (Error "Queue is full") q).
Proof.
  intros Hc E q. unfold constructor, valid_array_length in E.
  destruct (Z.leb_spec 0 cap) as [Hc0 | ?]; [| discriminate].
  destruct (cap <? 2 ^ 32); [| discriminate]. injection E as <-.
  destruct (small_size_indices cap ops
              {| queue := ∅; frontIndex := -1; rearIndex := -1; size := cap |})
    as [Hs Hfr]; [lia | done | simpl; auto |].
  fold q in Hs, Hfr.
  destruct q as [m f r n]. simpl in Hs, Hfr. subst n.
  assert (Hn : cap = 0 \/ cap = 1 \/ cap = 2) by lia.
  destruct Hfr as [[-> ->] | [-> ->]].
  - split; [done |]. discriminate.
  - split; [done |]. intros _ item.
    destruct Hn as [-> | [-> | ->]]; reflexivity.
Qed.

(** On a full queue whose size is not 2, [dequeue] followed by [enqueue]
    succeeds: the new item goes into the slot of the removed element, which
    becomes the rear slot, and the queue is full again. *)
Theorem dequeue_enqueue_reuses_slot item this :
  Inv this -> size this <> 2 -> length this = size this ->
  exists v this1 this2,
    dequeue this = Returns v this1 /\
    enqueue item this1 = Returns tt this2 /\
    queue this2 = <[frontIndex this := item]> (queue this) /\
    rearIndex this2 = frontIndex this /\
    length this2 = size this2.
Proof.
  intros HI Hn2 Hfull.
  assert (Hne : frontIndex this <> -1).
  { intros He. apply (length_zero_empty this HI) in He. destruct HI. lia. }
  destruct (dequeue_cases this HI) as [[He _] | [_ E1]].
  { unfold isEmpty in He. apply Z.eqb_eq in He. done. }
  destruct (dequeue_returns _ _ _ HI E1) as (HI1 & Hs1 & Hq1 & Hl1 & _).
  set (this1 := {| queue := queue this;
                   frontIndex := if frontIndex this =? rearIndex this then -1
                                 else (frontIndex this + 1) mod size this;
                   rearIndex := if frontIndex this =? rearIndex this then -1
                                else rearIndex this;
                   size := size this |}) in *.
  destruct (enqueue_cases item this1 HI1) as [[_ [Hf1 | [Hs2 _]]] | [_ E2]];
    [lia | simpl in Hs2; done |].
  destruct (enqueue_returns _ _ _ _ HI1 E2) as (_ & Hs2 & Hl2).
  assert (Hw : (if isEmpty this1 then 0
                else (rearIndex this1 + 1) mod size this1) = frontIndex this).
  { unfold isEmpty, this1; fields.
    destruct (Z.eqb_spec (frontIndex this) (rearIndex this)) as [Hfr | Hfr].
    - change (-1 =? -1) with true. cbv iota.
      unfold length in Hfull. rewrite Hfr in Hfull. revert Hfull.
      destruct HI as [Hn [[? _] | [Hf Hr]]]; [done |]. ztests.
    - destruct (Z.eqb_spec ((frontIndex this + 1) mod size this) (-1)) as [Hx | _].
      { destruct HI as [Hn _].
        pose proof (Z.mod_pos_bound (frontIndex this + 1) (size this)). lia. }
      rewrite <- (slot_length this HI Hne), Hfull. unfold slot.
      destruct HI as [Hn [[? _] | [Hf Hr]]]; [done |].
      replace (frontIndex this + size this)
        with (frontIndex this + 1 * size this) by lia.
      rewrite Z.mod_add, Z.mod_small; lia. }
  eexists _, this1, _. split; [exact E1 |]. split; [exact E2 |].
  split; [| split].
  - fields. rewrite Hw. done.
  - fields. exact Hw.
  - rewrite Hl2, Hl1, Hs2, Hs1. lia.
Qed.

(** After a sequence of calls that all succeed on a new queue, [isEmpty()]
    is true exactly when every enqueued item has been dequeued. *)
Theorem isEmpty_iff_drained (cap : Z) (q0 : CircularQueue T)
    (ops : list (op T)) (outs : list (value T)) (q : CircularQueue T) :
  0 < cap -> constructor cap = inr q0 ->
  run ops q0 = Some (outs, q) ->
  (isEmpty q = true <-> List.length (enqueued ops) = dequeues ops).
Proof.
  intros Hc E Hrun.
  destruct (Inv_constructor cap q0 Hc E) as (HI & _ & Hf & _).
  destruct (run_length ops q0 outs q HI Hrun) as (HI' & _ & Hl & _).
  assert (length q0 = 0) as H0 by (unfold length; rewrite Hf; done).
  unfold isEmpty. rewrite Z.eqb_eq, <- (length_zero_empty q HI'). lia.
Qed.

(** *** Filling and draining *)

Lemma run_exec (ops : list (op T)) :
  forall this outs this', run ops this = Some (outs, this') -> exec ops this = this'.
Proof.
  induction ops as [| [item |] ops IH]; intros this outs this' Hrun;
    simpl in Hrun.
  - by injection Hrun as _ <-.
  - change (exec (Enqueue item :: ops) this)
      with (exec ops (state_after (perform (Enqueue item) this))).
    unfold perform.
    destruct (enqueue item this) as [u this1 | e this1]; [| discriminate].
    by apply (IH this1 outs).
  - change (exec (Dequeue :: ops) this)
      with (exec ops (state_after (perform Dequeue this))).
    unfold perform.
    destruct (dequeue this) as [v this1 | e this1]; [| discriminate].
    destruct (run ops this1) as [[vs this2] |] eqn:Hrun1; [| discriminate].
    injection Hrun as _ <-. by apply (IH this1 vs).
Qed.

Lemma admissible_fill (cap : Z) (items : list T) (rest : list (op T)) :
  forall n : Z,
    n + Z.of_nat (List.length items) <= cap ->
    admissible cap n ((Enqueue <$> items) ++ rest)
    = admissible cap (n + Z.of_nat (List.length items)) rest.
Proof.
  induction items as [| x items IH]; intros n Hn; simpl in *.
  - by rewrite Z.add_0_r.
  - destruct (Z.ltb_spec n cap) as [_ | ?]; [| lia].
    rewrite IH by lia. simpl. f_equal. lia.
Qed.

Lemma admissible_drain (cap : Z) (k : nat) :
  forall n : Z, Z.of_nat k <= n -> admissible (T := T) cap n (replicate k Dequeue) = true.
Proof.
  induction k as [| k IH]; intros n Hn; simpl; [done |].
  destruct (Z.ltb_spec 0 n) as [_ | ?]; [| lia]. apply IH. lia.
Qed.

Lemma enqueued_fill_drain (items : list T) (k : nat) :
  enqueued ((Enqueue <$> items) ++ replicate k Dequeue) = items /\
  dequeues ((Enqueue <$> items) ++ replicate k Dequeue) = k.
Proof.
  induction items as [| x items [IHe IHd]]; csimpl.
  - induction k as [| k [IHe IHd]]; simpl; [done |]. by rewrite IHe, IHd.
  - by rewrite IHe, IHd.
Qed.

(** Round trip on a queue whose size is 1 or at least 3: enqueue up to
    [size] items, then dequeue as many.  Every call succeeds, the dequeues
    return the items in the order they went in, the queue is empty
    afterwards and accepts a further item. *)
Theorem fill_and_drain (cap : Z) (q0 : CircularQueue T) (items : list T)
    (x : T) :
  0 < cap -> cap <> 2 -> constructor cap = inr q0 ->
  Z.of_nat (List.length items) <= cap ->
  exists q q',
    run ((Enqueue <$> items) ++ replicate (List.length items) Dequeue) q0
      = Some (val <$> items, q) /\
    isEmpty q = true /\
    enqueue x q = Returns tt q'.
Proof.
  intros Hc Hn2 E Hlen.
  destruct (Inv_constructor cap q0 Hc E) as (_ & Hs & _).
  pose proof (Rep_constructor cap q0 Hc E) as HR0.
  destruct (enqueued_fill_drain items (List.length items)) as [He Hd].
  destruct (run_admissible
              ((Enqueue <$> items) ++ replicate (List.length items) Dequeue)
              q0 [] HR0) as (q & Hrun & HR).
  { congruence. }
  { rewrite Hs. simpl. rewrite admissible_fill by lia.
    apply admissible_drain. lia. }
  simpl in Hrun, HR. rewrite He, Hd in Hrun, HR.
  rewrite firstn_all in Hrun. rewrite drop_all in HR.
  destruct HR as (HI & Hl & _). simpl in Hl.
  assert (Hf : frontIndex q = -1) by (by apply length_zero_empty).
  assert (Hsq : size q = cap).
  { apply run_exec in Hrun. rewrite <- Hrun.
    destruct (Inv_constructor cap q0 Hc E) as (HI0 & _).
    destruct (Inv_exec ((Enqueue <$> items)
                        ++ replicate (List.length items) Dequeue) q0 HI0).
    congruence. }
  destruct (enqueue_cases x q HI) as [[_ [Hfull | (? & ? & _)]] | [_ Henq]];
    [lia | lia |].
  eexists q, _. split; [exact Hrun |]. split; [| exact Henq].
  unfold isEmpty. by apply Z.eqb_eq.
Qed.

(** *** What [peek] and the iterators show of the pending items *)

Lemma peek_Rep this l :
  Rep this l ->
  peek this = Returns (match l with [] => null | x :: _ => val x end) this.
Proof.
  intros HR. destruct l as [| x l].
  - destruct HR as (HI & Hl & _). simpl in Hl.
    apply (length_zero_empty this HI) in Hl. unfold peek. by rewrite Hl.
  - destruct (Rep_dequeue x this l HR) as (this' & E & _).
    unfold peek. unfold dequeue in E.
    destruct (frontIndex this =? -1); [discriminate |].
    destruct (frontIndex this =? rearIndex this);
      [| destruct (frontIndex this =? size this - 1)];
      injection E as Hv _; rewrite <- Hv; done.
Qed.

(** After an admissible sequence of calls on a new queue whose size is 1 or
    at least 3, [peek()] returns the oldest item enqueued and not yet
    dequeued, or [null] when there is none. *)
Theorem peek_oldest (cap : Z) (q0 : CircularQueue T) (ops : list (op T)) :
  0 < cap -> cap <> 2 -> constructor cap = inr q0 ->
  admissible cap 0 ops = true ->
  exists outs q,
    run ops q0 = Some (outs, q) /\
    peek q = Returns (match drop (dequeues ops) (enqueued ops) with
                      | [] => null
                      | x :: _ => val x
                      end) q.
Proof.
  intros Hc Hn2 E Hadm.
  destruct (Inv_constructor cap q0 Hc E) as (_ & Hs & _).
  destruct (run_admissible ops q0 [] (Rep_constructor cap q0 Hc E))
    as (q & Hrun & HR); [congruence | by rewrite Hs |].
  eexists _, q. split; [exact Hrun |]. by apply peek_Rep.
Qed.

(** An iterator used on a later state of its queue.  When the size is the
    same and the slots that were live at the iterator's creation read the
    same, the iterator yields what was live at its creation. *)
Lemma consume_stale this this' (fuel : nat) :
  Inv this -> size this' = size this ->
  (forall i : Z, 0 <= i < length this ->
     read (queue this') (Int (slot this i)) = read (queue this) (Int (slot this i))) ->
  (Z.to_nat (length this) < fuel)%nat ->
  consume fuel next this' (iterator this) = Some (window this) /\
  consume fuel reverse_next this' (reverseIterator this)
    = Some (reverse (window this)).
Proof.
  intros HI Hs Hread Hfuel. pose proof (length_range this HI) as Hr.
  destruct (Z.eq_dec (frontIndex this) (-1)) as [He | Hne].
  { assert (rearIndex this = -1) as Hre.
    { destruct HI as [_ [[_ ?] | [? _]]]; [done | lia]. }
    destruct fuel as [| fuel]; [lia |].
    unfold iterator, reverseIterator, window, length. rewrite He, Hre. done. }
  set (total := Z.to_nat (length this)) in *.
  split.
  - unfold iterator, window. fold total.
    rewrite <- (slot_front this HI Hne), <- (Z2Nat.id (length this)) at 1 by lia.
    fold total.
    rewrite (consume_positions next (fun k => slot this (Z.of_nat k))
               this' total) with (c := 0%nat); try lia.
    + rewrite Nat.sub_0_r. f_equal. apply list_fmap_ext.
      intros i k Hk. apply lookup_seq in Hk as [-> Hk].
      apply Hread. subst total. lia.
    + intros c Hc. rewrite next_yields by (done || by apply slot_not_sentinel).
      rewrite <- (slot_step this c HI). unfold step_forward. by rewrite Hs.
    + intros i. apply next_done.
  - rewrite <- (rslot_window this HI Hne). unfold reverseIterator. fold total.
    rewrite <- (rslot_rear this HI Hne), <- (Z2Nat.id (length this)) at 1 by lia.
    fold total.
    rewrite (consume_positions reverse_next (fun k => rslot this (Z.of_nat k))
               this' total) with (c := 0%nat); try lia.
    + rewrite Nat.sub_0_r. f_equal. apply list_fmap_ext.
      intros i k Hk. apply lookup_seq in Hk as [-> Hk].
      rewrite (rslot_slot this _ HI Hne). apply Hread. subst total. lia.
    + intros c Hc.
      rewrite reverse_next_yields by (done || by apply rslot_not_sentinel).
      rewrite <- (rslot_step this c HI). unfold step_backward. by rewrite Hs.
    + intros i. apply next_done.
Qed.

(** After an admissible sequence of calls on a new queue whose size is 1 or
    at least 3, the forward iterator yields the items enqueued and not yet
    dequeued, oldest first, and the reverse iterator yields them newest
    first. *)
Theorem iterators_yield_pending (cap : Z) (q0 : CircularQueue T)
    (ops : list (op T)) (fuel : nat) :
  0 < cap -> cap <> 2 -> constructor cap = inr q0 ->
  admissible cap 0 ops = true ->
  (List.length (drop (dequeues ops) (enqueued ops)) < fuel)%nat ->
  exists outs q,
    run ops q0 = Some (outs, q) /\
    consume fuel next q (iterator q)
      = Some (val <$> drop (dequeues ops) (enqueued ops)) /\
    consume fuel reverse_next q (reverseIterator q)
      = Some (val <$> reverse (drop (dequeues ops) (enqueued ops))).
Proof.
  intros Hc Hn2 E Hadm Hfuel.
  destruct (Inv_constructor cap q0 Hc E) as (_ & Hs & _).
  destruct (run_admissible ops q0 [] (Rep_constructor cap q0 Hc E))
    as (q & Hrun & HR); [congruence | by rewrite Hs |].
  simpl in Hrun, HR. eexists _, q. split; [exact Hrun |].
  pose proof (Rep_window q _ HR) as Hw. destruct HR as (HI & Hl & _).
  destruct (consume_stale q q fuel HI eq_refl (fun _ _ => eq_refl))
    as [Hf Hb]; [lia |].
  rewrite Hf, Hb, Hw, fmap_reverse. done.
Qed.

(** *** Iterators kept across later calls *)

Lemma dequeue_keeps_array this :
  queue (state_after (dequeue this)) = queue this /\
  size (state_after (dequeue this)) = size this.
Proof.
  unfold dequeue. destruct (frontIndex this =? -1); [done |].
  destruct (frontIndex this =? rearIndex this);
    [| destruct (frontIndex this =? size this - 1)]; done.
Qed.

Lemma dequeues_keep_array (k : nat) :
  forall this,
    queue (exec (replicate k Dequeue) this) = queue this /\
    size (exec (replicate k Dequeue) this) = size this.
Proof.
  induction k as [| k IH]; intros this; [done |].
  change (exec (replicate (S k) Dequeue) this)
    with (exec (replicate k Dequeue) (state_after (dequeue this))).
  destruct (IH (state_after (dequeue this))) as [Hq Hs].
  destruct (dequeue_keeps_array this) as [Hq' Hs']. split; congruence.
Qed.

(** An iterator created before any number of [dequeue] calls still yields
    every element that was live at its creation, the removed ones included:
    [dequeue] does not clear a slot, and the iterator keeps its own start
    index and count. *)
Theorem iterator_survives_dequeues this (k fuel : nat) :
  Inv this -> (Z.to_nat (length this) < fuel)%nat ->
  consume fuel next (exec (replicate k Dequeue) this) (iterator this)
    = Some (window this) /\
  consume fuel reverse_next (exec (replicate k Dequeue) this)
    (reverseIterator this)
    = Some (reverse (window this)).
Proof.
  intros HI Hfuel. destruct (dequeues_keep_array k this) as [Hq Hs].
  apply consume_stale; try done. intros i _. by rewrite Hq.
Qed.

(** A run of successful [enqueue] calls on a queue that is not empty
    keeps the front index and writes no slot that was live before. *)
Lemma enqueues_keep_window (items : list T) :
  forall this outs this',
    Inv this -> frontIndex this <> -1 ->
    run (Enqueue <$> items) this = Some (outs, this') ->
    size this' = size this /\
    forall i : Z, 0 <= i < length this ->
      queue this' !! slot this i = queue this !! slot this i.
Proof.
  induction items as [| x items IH]; intros this outs this' HI Hne Hrun;
    csimpl in Hrun.
  - by injection Hrun as _ <-.
  - destruct (enqueue x this) as [u this1 | e this1] eqn:E; [| discriminate].
    destruct (enqueue_returns _ _ _ _ HI E) as (HI1 & Hs1 & Hl1).
    destruct (enqueue_cases x this HI) as [[E' _] | [Hlt E']];
      rewrite E' in E; [discriminate |].
    injection E as _ <-. unfold isEmpty in *.
    destruct (Z.eqb_spec (frontIndex this) (-1)) as [? | _]; [done |].
    destruct (IH _ outs this' HI1 Hne Hrun) as [Hs' Hslots].
    split; [congruence |]. intros i Hi.
    pose proof (length_range this HI) as Hr.
    specialize (Hslots i ltac:(lia)). unfold slot in Hslots |- *.
    cbn [queue frontIndex size] in Hslots. rewrite Hslots.
    apply lookup_insert_ne.
    rewrite <- (slot_length this HI Hne). unfold slot. intros Hx.
    apply mod_inj_window in Hx; lia.
Qed.

(** An iterator created before a run of successful [enqueue] calls yields
    exactly the elements that were live at its creation: it does not see
    the new items, and they overwrite none of the old ones. *)
Theorem iterator_ignores_enqueues this (items : list T)
    (outs : list (value T)) this' (fuel : nat) :
  Inv this -> (Z.to_nat (length this) < fuel)%nat ->
  run (Enqueue <$> items) this = Some (outs, this') ->
  consume fuel next this' (iterator this) = Some (window this) /\
  consume fuel reverse_next this' (reverseIterator this)
    = Some (reverse (window this)).
Proof.
  intros HI Hfuel Hrun.
  destruct (run_length _ _ _ _ HI Hrun) as (_ & Hs & _).
  apply consume_stale; try done. intros i Hi.
  assert (Hne : frontIndex this <> -1).
  { intros He. apply (length_zero_empty this HI) in He. lia. }
  destruct (enqueues_keep_window items this outs this' HI Hne Hrun)
    as [_ Hslots].
  unfold read. by rewrite Hslots.
Qed.

(** *** LimitedQueue *)

Lemma limited_enqueue_or_throws item this :
  LimitedQueue.enqueue item this = enqueue item this \/
  LimitedQueue.enqueue item this
    = Throws (Error "Queue has reached its size limit") this.
Proof.
  unfold LimitedQueue.enqueue. destruct (length this >=? size this); auto.
Qed.

(** On a queue of positive size the override behaves as the inherited
    [enqueue], except that on a full queue it throws its own message where
    the inherited method throws "Queue is full"; the queue is left in the
    same state by both. *)
Theorem limited_enqueue_agrees item this :
  Inv this ->
  LimitedQueue.enqueue item this = enqueue item this \/
  (length this = size this /\
   LimitedQueue.enqueue item this
     = Throws (Error "Queue has reached its size limit") this /\
   enqueue item this = Throws (Error "Queue is full") this).
Proof.
  intros HI. pose proof (length_range this HI) as Hr.
  unfold LimitedQueue.enqueue. rewrite Z.geb_leb.
  destruct (Z.leb_spec (size this) (length this)) as [Hge | Hlt];
    [right | by left].
  assert (Hfull : length this = size this) by lia.
  split; [done |]. split; [done |].
  destruct (enqueue_cases item this HI) as [[E _] | [Hlt _]]; [done | lia].
Qed.

Lemma limited_perform_Inv (o : op T) this :
  Inv this ->
  Inv (state_after (LimitedQueue.perform o this)) /\
  size (state_after (LimitedQueue.perform o this)) = size this.
Proof.
  intros HI. destruct o as [item |].
  - unfold LimitedQueue.perform.
    destruct (limited_enqueue_or_throws item this) as [-> | ->]; [| done].
    apply (Inv_perform (Enqueue item) this HI).
  - apply (Inv_perform Dequeue this HI).
Qed.

(** A [LimitedQueue] of any size the constructor accepts, 0 included,
    never holds more elements than its size, whatever the calls. *)
Theorem limited_never_exceeds (cap : Z) (q0 : CircularQueue T)
    (ops : list (op T)) :
  LimitedQueue.constructor cap = inr q0 ->
  size (LimitedQueue.exec ops q0) = cap /\
  0 <= length (LimitedQueue.exec ops q0) <= cap.
Proof.
  unfold LimitedQueue.constructor, constructor, valid_array_length.
  destruct (Z.leb_spec 0 cap) as [Hc | ?]; [| discriminate].
  destruct (cap <? 2 ^ 32); [| discriminate]. intros E. injection E as <-.
  destruct (Z.eq_dec cap 0) as [-> | Hc0].
  - assert (H0 : forall m : gmap Z T,
              LimitedQueue.exec ops
                {| queue := m; frontIndex := -1; rearIndex := -1; size := 0 |}
              = {| queue := m; frontIndex := -1; rearIndex := -1; size := 0 |}).
    { induction ops as [| [item |] ops IH]; intros m; [done | |]; apply IH. }
    rewrite H0. done.
  - assert (HI : forall this, Inv this ->
              Inv (LimitedQueue.exec ops this) /\
              size (LimitedQueue.exec ops this) = size this).
    { induction ops as [| o ops IH]; intros this HI; [done |].
      destruct (limited_perform_Inv o this HI) as [HI' Hs].
      destruct (IH _ HI') as [HI'' Hs'].
      unfold LimitedQueue.exec in *. simpl. split; [done | congruence]. }
    destruct (HI {| queue := ∅; frontIndex := -1; rearIndex := -1;
                    size := cap |}) as [HI' Hs].
    { unfold Inv. simpl. split; [lia | auto]. }
    pose proof (length_range _ HI') as Hr. simpl in Hs. split; [done | lia].
Qed.

End Further.

(** ** Instances of the further laws *)

(** The wrap-around sequence on a queue of size 3 returns A and leaves B,
    C, D. *)
Lemma fifo_law_witness :
  0 < 3 /\ 3 <> 2 /\ constructor 3 = inr empty3 /\
  admissible 3 0 wrapped_ops = true /\
  exists q,
    run wrapped_ops empty3
      = Some (val <$> take (dequeues wrapped_ops) (enqueued wrapped_ops), q) /\
    Rep q (drop (dequeues wrapped_ops) (enqueued wrapped_ops)).
Proof.
  assert (Hcap : 0 < 3) by lia.
  assert (Hn2 : 3 <> 2) by lia.
  assert (Hnew : constructor 3 = inr empty3) by reflexivity.
  assert (Hadm : admissible 3 0 wrapped_ops = true) by reflexivity.
  split; [exact Hcap |]. split; [exact Hn2 |]. split; [exact Hnew |].
  split; [exact Hadm |].
  exact (fifo_law 3 empty3 wrapped_ops Hcap Hn2 Hnew Hadm).
Defined.

(** A, B, C through a queue of size 3, which then accepts D. *)
Lemma fill_and_drain_witness :
  0 < 3 /\ 3 <> 2 /\ constructor 3 = inr empty3 /\
  Z.of_nat (List.length ["A"; "B"; "C"]%string) <= 3 /\
  exists q q',
    run ((Enqueue <$> ["A"; "B"; "C"]%string)
         ++ replicate (List.length ["A"; "B"; "C"]%string) Dequeue) empty3
      = Some (val <$> ["A"; "B"; "C"]%string, q) /\
    isEmpty q = true /\
    enqueue "D"%string q = Returns tt q'.
Proof.
  assert (Hcap : 0 < 3) by lia.
  assert (Hn2 : 3 <> 2) by lia.
  assert (Hnew : constructor 3 = inr empty3) by reflexivity.
  assert (Hlen : Z.of_nat (List.length ["A"; "B"; "C"]%string) <= 3)
    by (vm_compute; discriminate).
  split; [exact Hcap |]. split; [exact Hn2 |]. split; [exact Hnew |].
  split; [exact Hlen |].
  exact (fill_and_drain 3 empty3 ["A"; "B"; "C"]%string "D"%string
           Hcap Hn2 Hnew Hlen).
Defined.

(** The new queue of size 3 has room. *)
Lemma enqueue_returns_iff_witness :
  Inv empty3 /\
  ((exists this', enqueue "A"%string empty3 = Returns tt this') <->
   (length empty3 < size empty3 /\
    ~ (size empty3 = 2 /\ frontIndex empty3 = 0 /\ rearIndex empty3 = 0))).
Proof.
  assert (HI : Inv empty3) by (unfold Inv; vm_compute; split; [easy | left; easy]).
  split; [exact HI |]. exact (enqueue_returns_iff "A"%string empty3 HI).
Defined.

(** A queue of size 2 after two [enqueue] calls holds one element. *)
Lemma small_sizes_hold_one_witness :
  2 <= 2 /\
  constructor (T := string) 2
    = inr {| queue := ∅; frontIndex := -1; rearIndex := -1; size := 2 |} /\
  length (exec [Enqueue "A"; Enqueue "B"]%string
            {| queue := ∅; frontIndex := -1; rearIndex := -1; size := 2 |}) <= 1.
Proof.
  assert (Hcap : 2 <= 2) by lia.
  assert (Hnew : constructor (T := string) 2
                 = inr {| queue := ∅; frontIndex := -1; rearIndex := -1;
                          size := 2 |}) by reflexivity.
  split; [exact Hcap |]. split; [exact Hnew |].
  exact (proj1 (small_sizes_hold_one 2 _ [Enqueue "A"; Enqueue "B"]%string
                  Hcap Hnew)).
Defined.

(** On the full queue A, B, C: [dequeue], then [enqueue] of D into slot 0. *)
Lemma dequeue_enqueue_reuses_slot_witness :
  Inv full3 /\ size full3 <> 2 /\ length full3 = size full3 /\
  exists v this1 this2,
    dequeue full3 = Returns v this1 /\
    enqueue "D"%string this1 = Returns tt this2 /\
    queue this2 = <[frontIndex full3 := "D"%string]> (queue full3) /\
    rearIndex this2 = frontIndex full3 /\
    length this2 = size this2.
Proof.
  assert (HI : Inv full3) by eval_inv.
  assert (Hn2 : size full3 <> 2) by (vm_compute; discriminate).
  assert (Hfull : length full3 = size full3) by reflexivity.
  split; [exact HI |]. split; [exact Hn2 |]. split; [exact Hfull |].
  exact (dequeue_enqueue_reuses_slot "D"%string full3 HI Hn2 Hfull).
Defined.

(** After the wrap-around sequence the queue is not empty: four items went
    in and one came out. *)
Lemma isEmpty_iff_drained_witness :
  0 < 3 /\ constructor 3 = inr empty3 /\
  run wrapped_ops empty3 = Some ([val "A"%string], wrapped3) /\
  (isEmpty wrapped3 = true
   <-> List.length (enqueued wrapped_ops) = dequeues wrapped_ops).
Proof.
  assert (Hcap : 0 < 3) by lia.
  assert (Hnew : constructor 3 = inr empty3) by reflexivity.
  assert (Hrun : run wrapped_ops empty3 = Some ([val "A"%string], wrapped3))
    by (vm_compute; reflexivity).
  split; [exact Hcap |]. split; [exact Hnew |]. split; [exact Hrun |].
  exact (isEmpty_iff_drained 3 empty3 wrapped_ops _ wrapped3 Hcap Hnew Hrun).
Defined.

(** After the wrap-around sequence [peek()] returns B. *)
Lemma peek_oldest_witness :
  0 < 3 /\ 3 <> 2 /\ constructor 3 = inr empty3 /\
  admissible 3 0 wrapped_ops = true /\
  exists outs q,
    run wrapped_ops empty3 = Some (outs, q) /\
    peek q = Returns (match drop (dequeues wrapped_ops) (enqueued wrapped_ops)
                      with
                      | [] => null
                      | x :: _ => val x
                      end) q.
Proof.
  assert (Hcap : 0 < 3) by lia.
  assert (Hn2 : 3 <> 2) by lia.
  assert (Hnew : constructor 3 = inr empty3) by reflexivity.
  assert (Hadm : admissible 3 0 wrapped_ops = true) by reflexivity.
  split; [exact Hcap |]. split; [exact Hn2 |]. split; [exact Hnew |].
  split; [exact Hadm |].
  exact (peek_oldest 3 empty3 wrapped_ops Hcap Hn2 Hnew Hadm).
Defined.

(** After the wrap-around sequence the iterators yield B, C, D and
    D, C, B. *)
Lemma iterators_yield_pending_witness :
  0 < 3 /\ 3 <> 2 /\ constructor 3 = inr empty3 /\
  admissible 3 0 wrapped_ops = true /\
  (List.length (drop (dequeues wrapped_ops) (enqueued wrapped_ops)) < 4)%nat /\
  exists outs q,
    run wrapped_ops empty3 = Some (outs, q) /\
    consume 4 next q (iterator q)
      = Some (val <$> drop (dequeues wrapped_ops) (enqueued wrapped_ops)) /\
    consume 4 reverse_next q (reverseIterator q)
      = Some (val <$> reverse (drop (dequeues wrapped_ops)
                                 (enqueued wrapped_ops))).
Proof.
  assert (Hcap : 0 < 3) by lia.
  assert (Hn2 : 3 <> 2) by lia.
  assert (Hnew : constructor 3 = inr empty3) by reflexivity.
  assert (Hadm : admissible 3 0 wrapped_ops = true) by reflexivity.
  assert (Hfuel : (List.length (drop (dequeues wrapped_ops)
                                  (enqueued wrapped_ops)) < 4)%nat)
    by (vm_compute; lia).
  split; [exact Hcap |]. split; [exact Hn2 |]. split; [exact Hnew |].
  split; [exact Hadm |]. split; [exact Hfuel |].
  exact (iterators_yield_pending 3 empty3 wrapped_ops 4
           Hcap Hn2 Hnew Hadm Hfuel).
Defined.

(** An iterator of the wrapped queue, used after two [dequeue] calls, still
    yields B, C, D. *)
Lemma iterator_survives_dequeues_witness :
  Inv wrapped3 /\ (Z.to_nat (length wrapped3) < 4)%nat /\
  length (exec (replicate 2 Dequeue) wrapped3) = 1 /\
  consume 4 next (exec (replicate 2 Dequeue) wrapped3) (iterator wrapped3)
    = Some (window wrapped3) /\
  consume 4 reverse_next (exec (replicate 2 Dequeue) wrapped3)
    (reverseIterator wrapped3)
    = Some (reverse (window wrapped3)).
Proof.
  assert (HI : Inv wrapped3) by eval_inv.
  assert (Hfuel : (Z.to_nat (length wrapped3) < 4)%nat) by (vm_compute; lia).
  split; [exact HI |]. split; [exact Hfuel |]. split; [reflexivity |].
  exact (iterator_survives_dequeues wrapped3 2 4 HI Hfuel).
Defined.

(** An iterator of the queue holding A, used after B and C are enqueued,
    yields A only. *)
Lemma iterator_ignores_enqueues_witness :
  Inv one3 /\ (Z.to_nat (length one3) < 2)%nat /\
  run (Enqueue <$> ["B"; "C"]%string) one3 = Some ([], full3) /\
  consume 2 next full3 (iterator one3) = Some (window one3) /\
  consume 2 reverse_next full3 (reverseIterator one3)
    = Some (reverse (window one3)).
Proof.
  assert (HI : Inv one3) by eval_inv.
  assert (Hfuel : (Z.to_nat (length one3) < 2)%nat) by (vm_compute; lia).
  assert (Hrun : run (Enqueue <$> ["B"; "C"]%string) one3 = Some ([], full3))
    by (vm_compute; reflexivity).
  split; [exact HI |]. split; [exact Hfuel |]. split; [exact Hrun |].
  exact (iterator_ignores_enqueues one3 ["B"; "C"]%string [] full3 2
           HI Hfuel Hrun).
Defined.

(** On the full queue A, B, C the override throws its own message. *)
Lemma limited_enqueue_agrees_witness :
  Inv full3 /\
  (LimitedQueue.enqueue "D"%string full3 = enqueue "D"%string full3 \/
   (length full3 = size full3 /\
    LimitedQueue.enqueue "D"%string full3
      = Throws (Error "Queue has reached its size limit") full3 /\
    enqueue "D"%string full3 = Throws (Error "Queue is full") full3)).
Proof.
  assert (HI : Inv full3) by eval_inv.
  split; [exact HI |]. exact (limited_enqueue_agrees "D"%string full3 HI).
Defined.

(** A [LimitedQueue] of size 0 stays empty. *)
Lemma limited_never_exceeds_witness :
  LimitedQueue.constructor (T := string) 0
    = inr {| queue := ∅; frontIndex := -1; rearIndex := -1; size := 0 |} /\
  size (LimitedQueue.exec [Enqueue "A"%string]
          {| queue := ∅; frontIndex := -1; rearIndex := -1; size := 0 |}) = 0 /\
  0 <= length (LimitedQueue.exec [Enqueue "A"%string]
                 {| queue := ∅; frontIndex := -1; rearIndex := -1;
                    size := 0 |}) <= 0.
Proof.
  assert (Hnew : LimitedQueue.constructor (T := string) 0
                 = inr {| queue := ∅; frontIndex := -1; rearIndex := -1;
                          size := 0 |}) by reflexivity.
  split; [exact Hnew |].
  exact (limited_never_exceeds 0 _ [Enqueue "A"%string] Hnew).
Defined.
